(** * generate-changelog: the Markdown writer ([src/lib/writer.js])

    A shallow embedding of [getCommitUrl] and [markdown] and the
    properties of the rendered changelog.

    Conventions of the embedding.
    - A JavaScript string is a [string]: a sequence of code units, taken
      below 256 (the Latin-1 range), so that comparing code units is
      comparing [ascii] characters.
    - A field that may be missing from a record (JavaScript [undefined])
      is an [option].
    - [new Date().toJSON().slice(0, 10)] is read from the clock; it is the
      parameter [date] of [markdown].
    - The promise returned by [markdown] either resolves to a string or is
      rejected with a [TypeError]; see [result].
    - A plain object used as a map keeps its JavaScript behaviour: the
      properties inherited from [Object.prototype] are found by a lookup,
      and [Object.keys] lists array indices before the other names; see
      [Obj].
    - [Object.prototype] is as the engine provides it when [markdown] is
      called.  [markdown] is followed as long as no commit is filed on a
      built-in object; [markdownOn] follows the commits that are filed on
      [Object.prototype] as well. *)

From Stdlib Require Import Bool Arith ZArith NArith Lia List Ascii String.
From Stdlib Require Import Sorting.Sorted Sorting.Permutation.
Import ListNotations.

Local Open Scope list_scope.
Local Open Scope string_scope.

Set Implicit Arguments.

(* ================================================================= *)
(** * The string operations the source calls *)

Module Text.

(** The line feed ['\n'] and the carriage return ['\r']. *)
Definition LF : ascii := ascii_of_nat 10.
Definition CR : ascii := ascii_of_nat 13.

Definition nl : string := String LF "".

Fixpoint dropWhile (p : ascii -> bool) (s : string) : string :=
  match s with
  | "" => ""
  | String a t => if p a then dropWhile p t else s
  end.

Fixpoint takeWhile (p : ascii -> bool) (s : string) : string :=
  match s with
  | "" => ""
  | String a t => if p a then String a (takeWhile p t) else ""
  end.

(** [s.indexOf(needle)]: the first position at which [needle] occurs,
    [-1] when there is none. *)
Fixpoint indexOfFrom (needle s : string) (i : Z) : Z :=
  if prefix needle s then i
  else match s with
       | "" => (-1)%Z
       | String _ t => indexOfFrom needle t (i + 1)%Z
       end.

Definition indexOf (s needle : string) : Z := indexOfFrom needle s 0%Z.

(** A relative index as [slice] resolves it: counted from the end when
    negative, and clamped to the string. *)
Definition clampIndex (len i : Z) : Z :=
  if (i <? 0)%Z then Z.max (len + i) 0 else Z.min i len.

(** [s.slice(start)] is [slice s start None]; [s.slice(start, stop)] is
    [slice s start (Some stop)]. *)
Definition slice (s : string) (start : Z) (stop : option Z) : string :=
  let len := Z.of_nat (length s) in
  let from := clampIndex len start in
  let to := match stop with
            | None => len
            | Some e => clampIndex len e
            end in
  substring (Z.to_nat from) (Z.to_nat (Z.max (to - from) 0)) s.

(** [s.substring(0, n)]. *)
Definition substring0 (n : nat) (s : string) : string := substring 0 n s.

(** White space and line terminators, as [trim] sees them among the
    code units below 256: TAB, LF, VT, FF, CR, SP and NBSP. *)
Definition isSpace (a : ascii) : bool :=
  let n := nat_of_ascii a in
  ((9 <=? n)%nat && (n <=? 13)%nat) || (n =? 32)%nat || (n =? 160)%nat.

Definition isEmpty (s : string) : bool :=
  match s with "" => true | _ => false end.

Definition trimStart (s : string) : string := dropWhile isSpace s.

Fixpoint trimEnd (s : string) : string :=
  match s with
  | "" => ""
  | String a t =>
      let t' := trimEnd t in
      if isSpace a && isEmpty t' then "" else String a t'
  end.

(** [s.trim()]. *)
Definition trim (s : string) : string := trimEnd (trimStart s).

(** [s.replaceAll(c, r)] for a pattern of one character and a
    replacement without [$]. *)
Fixpoint replaceAllChar (c : ascii) (r : string) (s : string) : string :=
  match s with
  | "" => ""
  | String a t =>
      if Ascii.eqb a c then r ++ replaceAllChar c r t
      else String a (replaceAllChar c r t)
  end.

(** [lines.join(sep)]. *)
Definition join (sep : string) (ls : list string) : string := concat sep ls.

(** A string used as a condition: every string but the empty one is
    truthy. *)
Definition truthy (s : string) : bool := negb (isEmpty s).


End Text.

Import Text.

(* ================================================================= *)
(** * Regular expressions

    The fragment of JavaScript regular expressions the writer uses:
    single characters and character classes, concatenation, the greedy
    quantifiers [*] and [+], and capture groups.  Matching is the
    backtracking search of the language definition, written with a
    continuation: [run r s c k] matches [r] at the start of [s] and hands
    the rest of the input and the captures to [k]; when [k] fails the
    next alternative of [r] is tried. *)

Module Regex.

Inductive regex : Type :=
| Eps
| Chr (p : ascii -> bool)
| Cat (r1 r2 : regex)
| Star (r : regex)
| Group (i : nat) (r : regex).

Definition lit (c : ascii) : regex := Chr (Ascii.eqb c).

(** [.] matches any character but a line terminator. *)
Definition isLineChar (a : ascii) : bool :=
  negb (Ascii.eqb a LF || Ascii.eqb a CR).

Definition dot : regex := Chr isLineChar.

Definition inRange (lo hi : nat) (a : ascii) : bool :=
  let n := nat_of_ascii a in ((lo <=? n)%nat && (n <=? hi)%nat).

(** [[1-9]] and [[\d]]. *)
Definition isNonZeroDigit : ascii -> bool := inRange 49 57.
Definition isDigit : ascii -> bool := inRange 48 57.

Definition plus (r : regex) : regex := Cat r (Star r).

Fixpoint word (s : string) : regex :=
  match s with
  | "" => Eps
  | String a t => Cat (lit a) (word t)
  end.

Fixpoint seq (rs : list regex) : regex :=
  match rs with
  | [] => Eps
  | r :: rs' => Cat r (seq rs')
  end.

(** The captures so far, the latest first. *)
Definition captures : Type := list (nat * string).

Fixpoint capture (i : nat) (c : captures) : option string :=
  match c with
  | [] => None
  | (j, v) :: c' => if (i =? j)%nat then Some v else capture i c'
  end.

(** What a match that started at [s] and stopped at [rest] has read. *)
Definition consumed (s rest : string) : string :=
  substring 0 (length s - length rest) s.

Section Run.
Variable R : Type.

(** The greedy iteration of [*]: one more [step] as long as it reads
    something, else the continuation; an iteration that reads nothing
    is refused.  [n] bounds the number of iterations by the length of
    the input. *)
Fixpoint iterate
         (step : string -> captures ->
                 (string -> captures -> option R) -> option R)
         (k : string -> captures -> option R)
         (n : nat) (s : string) (c : captures) {struct n} : option R :=
  match n with
  | O => k s c
  | S n' =>
      match step s c
              (fun s' c' =>
                 if (length s' <? length s)%nat
                 then iterate step k n' s' c' else None) with
      | Some x => Some x
      | None => k s c
      end
  end.

Fixpoint run (r : regex) (s : string) (c : captures)
         (k : string -> captures -> option R) {struct r} : option R :=
  match r with
  | Eps => k s c
  | Chr p =>
      match s with
      | String a t => if p a then k t c else None
      | "" => None
      end
  | Cat r1 r2 => run r1 s c (fun s' c' => run r2 s' c' k)
  | Group i r1 => run r1 s c (fun s' c' => k s' ((i, consumed s s') :: c'))
  | Star r1 => iterate (run r1) k (length s) s c
  end.
End Run.

(** One match attempt at the start of [s]: the rest of the input and
    the captures when it succeeds. *)
Definition exec (r : regex) (s : string) : option (string * captures) :=
  run r s [] (fun s' c' => Some (s', c')).

(** [s.replace(r, f)] for a regular expression with the [g] flag: the
    matches are searched from left to right, each from the end of the
    one before; [f] receives the matched text and the captures.  After
    an empty match the search moves one character on. *)
Fixpoint replaceFrom (fuel : nat) (r : regex)
         (f : string -> captures -> string) (s : string) : string :=
  match fuel with
  | O => s
  | S fuel' =>
      match exec r s with
      | Some (rest, c) =>
          let m := consumed s rest in
          if (length rest <? length s)%nat
          then f m c ++ replaceFrom fuel' r f rest
          else match s with
               | "" => f m c
               | String a t => f m c ++ String a (replaceFrom fuel' r f t)
               end
      | None =>
          match s with
          | "" => ""
          | String a t => String a (replaceFrom fuel' r f t)
          end
      end
  end.

Definition replace (r : regex) (f : string -> captures -> string)
           (s : string) : string :=
  replaceFrom (S (length s)) r f s.

(** The replacement pattern ['$1 ']: the first capture (the empty
    string when it did not take part) and a space. *)
Definition dollar1space (_ : string) (c : captures) : string :=
  match capture 1 c with
  | Some v => v
  | None => ""
  end ++ " ".

End Regex.

Import Regex.

(* ================================================================= *)
(** * Plain objects used as maps

    [{}] is an ordinary object: reading a property that is not its own
    falls through to [Object.prototype], and [Object.keys] lists the own
    properties that are array indices first, in ascending numeric order,
    then the others in the order of their creation. *)

Module Obj.

(** The properties every ordinary object inherits. *)
Definition protoNames : list string :=
  [ "constructor"; "__defineGetter__"; "__defineSetter__";
    "hasOwnProperty"; "__lookupGetter__"; "__lookupSetter__";
    "isPrototypeOf"; "propertyIsEnumerable"; "toString"; "valueOf";
    "__proto__"; "toLocaleString" ].

Definition inherited (k : string) : bool :=
  existsb (String.eqb k) protoNames.

(** The own properties, in the order of their creation. *)
Definition obj (V : Type) : Type := list (string * V).

Fixpoint own (V : Type) (o : obj V) (k : string) : option V :=
  match o with
  | [] => None
  | (k', v) :: o' => if k =? k' then Some v else own o' k
  end.

(** [o[k] = v] on an own or absent property: an existing property keeps
    its place, a new one is created last. *)
Fixpoint put (V : Type) (o : obj V) (k : string) (v : V) : obj V :=
  match o with
  | [] => [(k, v)]
  | (k', v') :: o' =>
      if k =? k' then (k', v) :: o' else (k', v') :: put o' k v
  end.

(** The outcome of reading [o[k]]. *)
Inductive lookup (V : Type) : Type :=
| Own (v : V)
| Inherited
| Missing.
Arguments Inherited {V}.
Arguments Missing {V}.

Definition get (V : Type) (o : obj V) (k : string) : lookup V :=
  match own o k with
  | Some v => Own v
  | None => if inherited k then Inherited else Missing
  end.

Fixpoint digitsValue (acc : N) (s : string) : option N :=
  match s with
  | "" => Some acc
  | String a t =>
      if isDigit a
      then digitsValue (10 * acc + (N_of_ascii a - 48))%N t
      else None
  end.

(** The number a property name denotes when it is an array index: a
    canonical decimal numeral up to [2^32 - 2]. *)
Definition arrayIndex (k : string) : option N :=
  match k with
  | "" => None
  | String a t =>
      if Ascii.eqb a "0" && negb (isEmpty t) then None
      else match digitsValue 0 k with
           | Some n => if (n <=? 4294967294)%N then Some n else None
           | None => None
           end
  end.

Fixpoint insertIndex (x : N * string) (l : list (N * string))
  : list (N * string) :=
  match l with
  | [] => [x]
  | y :: l' => if (fst x <=? fst y)%N then x :: l else y :: insertIndex x l'
  end.

Definition sortIndex (l : list (N * string)) : list (N * string) :=
  fold_right insertIndex [] l.

Fixpoint indexKeys (V : Type) (o : obj V) : list (N * string) :=
  match o with
  | [] => []
  | (k, _) :: o' =>
      match arrayIndex k with
      | Some n => (n, k) :: indexKeys o'
      | None => indexKeys o'
      end
  end.

Fixpoint nameKeys (V : Type) (o : obj V) : list string :=
  match o with
  | [] => []
  | (k, _) :: o' =>
      match arrayIndex k with
      | Some _ => nameKeys o'
      | None => k :: nameKeys o'
      end
  end.

(** [Object.keys(o)]. *)
Definition keys (V : Type) (o : obj V) : list string :=
  (map snd (sortIndex (indexKeys o)) ++ nameKeys o)%list.

Fixpoint insertKey (x : string) (l : list string) : list string :=
  match l with
  | [] => [x]
  | y :: l' => if (x <=? y) then x :: l else y :: insertKey x l'
  end.

(** [ks.sort()] on an array of strings: ascending by code units. *)
Definition sort (ks : list string) : list string :=
  fold_right insertKey [] ks.

End Obj.

Import Obj.

(* ================================================================= *)
(** * The outcome of a call *)

(** [markdown] resolves to a value ([Ok]), is rejected with a
    [TypeError], or, when a commit type is the name of a property
    inherited from [Object.prototype], files the commit on that built-in
    object ([BuiltinWrite]): from there on the result depends on what the
    rest of the process has stored on it, which the embedding does not
    follow. *)
Inductive result (A : Type) : Type :=
| Ok (a : A)
| TypeError
| BuiltinWrite.
Arguments TypeError {A}.
Arguments BuiltinWrite {A}.

Definition bind (A B : Type) (m : result A) (f : A -> result B) : result B :=
  match m with
  | Ok a => f a
  | TypeError => TypeError
  | BuiltinWrite => BuiltinWrite
  end.

Notation "x <- m ;; k" := (bind m (fun x => k))
  (at level 61, m at next level, right associativity).

(** [xs.forEach(f)] collecting what each call pushes. *)
Fixpoint mapM (A B : Type) (f : A -> result B) (xs : list A)
  : result (list B) :=
  match xs with
  | [] => Ok []
  | x :: xs' => y <- f x ;; ys <- mapM f xs' ;; Ok (y :: ys)
  end.

(** [.each(f)] threading the bound state. *)
Fixpoint foldM (A S : Type) (f : S -> A -> result S) (xs : list A) (s : S)
  : result S :=
  match xs with
  | [] => Ok s
  | x :: xs' => s' <- f s x ;; foldM f xs' s'
  end.

(* ================================================================= *)
(** * The writer *)

Record commit : Type := {
  hash : option string;
  type : string;
  category : option string;
  subject : option string;
  body : option string;
  flagIfBreaking : option string
}.

Record options : Type := {
  patch : bool;
  minor : bool;
  major : bool;
  repoUrl : option string;
  allowUnknown : bool
}.

(** The double quote. *)
Definition dq : string := String (ascii_of_nat 34) "".

Definition DEFAULT_TYPE : string := "other".

(** [/#[1-9][\d]*/g] *)
Definition PR_REGEX : regex :=
  seq [lit "#"; Chr isNonZeroDigit; Star (Chr isDigit)].

(** The label of [test] ends with a character outside the range of the
    embedding; it stands here as its UTF-8 bytes and is only ever
    copied. *)
Definition TYPES : obj string :=
  [ ("breaking", "Breaking Changes :boom:");
    ("build", "Build System / Dependencies :construction_worker: :arrow_up:");
    ("ci", "Continuous Integration :rocket:");
    ("docs", "Documentation Changes :memo:");
    ("feat", "New Features :sparkles:");
    ("fix", "Bug Fixes :bug:");
    ("perf", "Performance Improvements :zap:");
    ("refactor", "Refactors :recycle:");
    ("style", "Code Style Changes :art: :lipstick:");
    ("test", "Tests 🧪");
    ("other", "Other Changes :question:") ].

(** [TYPES.other] *)
Definition TYPES_other : string :=
  match own TYPES "other" with
  | Some d => d
  | None => "undefined"
  end.

(** Lines 27-39. *)
Definition getCommitUrl (baseUrl commitHash : string) : string :=
  let urlCommitName :=
    if negb (indexOf baseUrl "bitbucket" =? -1)%Z then "commits" else "commit" in
  let baseUrl :=
    if negb (indexOf baseUrl "gitlab" =? -1)%Z
       && (slice baseUrl (-4) None =? ".git")
    then slice baseUrl 0 (Some (-4)%Z)
    else baseUrl in
  baseUrl ++ "/" ++ urlCommitName ++ "/" ++ commitHash.

(** A value of [TYPES[k]] used as a condition. *)
Definition truthyLookup (l : lookup string) : bool :=
  match l with
  | Own d => truthy d
  | Inherited => true
  | Missing => false
  end.

(** A built-in value of [Object.prototype] turned into text, as V8 prints
    it: [constructor] is the function [Object], [__proto__] reads
    [Object.prototype] itself, every other one is a function of that
    name. *)
Definition builtinText (k : string) : string :=
  if k =? "__proto__" then "[object Object]"
  else "function " ++ (if k =? "constructor" then "Object" else k)
       ++ "() { [native code] }".

(** A property name made of a value that may be [undefined]. *)
Definition propertyKey (o : option string) : string :=
  match o with
  | Some s => s
  | None => "undefined"
  end.

(** Line 77:
    [TYPES[commit.type] || options.allowUnknown ? commit.type : DEFAULT_TYPE],
    where [||] binds tighter than [?:]. *)
Definition resolveType (opts : options) (c : commit) : string :=
  if truthyLookup (get TYPES (type c)) || allowUnknown opts
  then type c
  else DEFAULT_TYPE.

Definition buckets : Type := obj (obj (list commit)).

(** Lines 76-84, the body of the first [.each]: [types] is [this.types].
    [x = x || d] keeps an own or inherited value and creates [d] otherwise;
    an inherited value is a function (or [Object.prototype]), so that as a
    category it has no [push], and as a type it is the object on which the
    category is then stored. *)
Definition addCommit (opts : options) (types : buckets) (c : commit)
  : result buckets :=
  let type := resolveType opts c in
  let category := propertyKey (category c) in
  match get types type with
  | Inherited => BuiltinWrite
  | Own cats =>
      match get cats category with
      | Inherited => TypeError
      | Own arr => Ok (put types type (put cats category (arr ++ [c])%list))
      | Missing => Ok (put types type (put cats category [c]))
      end
  | Missing =>
      match get (@nil (string * list commit)) category with
      | Inherited => TypeError
      | Own arr => Ok (put types type (put [] category (arr ++ [c])%list))
      | Missing => Ok (put types type (put [] category [c]))
      end
  end.

Definition groupCommits (opts : options) (commits : list commit)
  : result buckets :=
  foldM (addCommit opts) commits [].

(** Lines 89-96: the section heading pushed for a type. *)
Definition typeHeading (opts : options) (type : string) : string :=
  let typeDescription := get TYPES type in
  let typeDescription :=
    if negb (truthyLookup typeDescription) && allowUnknown opts
    then Own (TYPES_other ++ " (" ++ type ++ ")")
    else typeDescription in
  "##### " ++ match typeDescription with
              | Own d => d
              | Inherited => builtinText type
              | Missing => "undefined"
              end.

(** [/(\n)+(END BREAKING CHANGE)(.)*(\n)*(.)*(\n)*(.)*(\n)*(.)*(\n)*(.)*/g] *)
Definition trailerBreaking : regex :=
  seq [ plus (Group 1 (lit LF)); Group 2 (word "END BREAKING CHANGE");
        Star (Group 3 dot);
        Star (Group 4 (lit LF)); Star (Group 5 dot);
        Star (Group 6 (lit LF)); Star (Group 7 dot);
        Star (Group 8 (lit LF)); Star (Group 9 dot);
        Star (Group 10 (lit LF)); Star (Group 11 dot) ].

(** [/(\n)+(See)(.)*(\n)*(.)*(\n)*(.)*(\n)*(.)*/g] *)
Definition trailerSee : regex :=
  seq [ plus (Group 1 (lit LF)); Group 2 (word "See");
        Star (Group 3 dot);
        Star (Group 4 (lit LF)); Star (Group 5 dot);
        Star (Group 6 (lit LF)); Star (Group 7 dot);
        Star (Group 8 (lit LF)); Star (Group 9 dot) ].

(** [/(\n)+(Closes)(.)*(\n)*(.)*(\n)*(.)*/g] *)
Definition trailerCloses : regex :=
  seq [ plus (Group 1 (lit LF)); Group 2 (word "Closes");
        Star (Group 3 dot);
        Star (Group 4 (lit LF)); Star (Group 5 dot);
        Star (Group 6 (lit LF)); Star (Group 7 dot) ].

(** Lines 134-136. *)
Definition stripTrailers (body : option string) : string :=
  let body := match body with
              | Some b =>
                  if truthy b then replace trailerBreaking dollar1space b else ""
              | None => ""
              end in
  let body := if truthy body then replace trailerSee dollar1space body else "" in
  let body := if truthy body then replace trailerCloses dollar1space body else "" in
  body.

(** The two link styles of lines 118-128. *)
Definition anchor (url text : string) : string :=
  "<a href=" ++ dq ++ url ++ dq ++ ">" ++ text ++ "</a>".

Definition mdLink (url text : string) : string :=
  "[" ++ text ++ "](" ++ url ++ ")".

(** Lines 116-131: the short hash and the subject, linked when
    [options.repoUrl] is truthy. *)
Definition linkHash (opts : options) (type h : string) : string :=
  let shorthash := substring0 8 h in
  match repoUrl opts with
  | Some url =>
      if truthy url then
        if type =? "breaking"
        then anchor (getCommitUrl url h) shorthash
        else mdLink (getCommitUrl url h) shorthash
      else shorthash
  | None => shorthash
  end.

Definition linkSubject (opts : options) (type subject : string) : string :=
  match repoUrl opts with
  | Some url =>
      if truthy url then
        if type =? "breaking"
        then replace PR_REGEX
               (fun pr _ => anchor (url ++ "/pull/" ++ slice pr 1 None) pr)
               subject
        else replace PR_REGEX
               (fun pr _ => mdLink (url ++ "/pull/" ++ slice pr 1 None) pr)
               subject
      else subject
  | None => subject
  end.

(** Line 133. *)
Definition breakingPrefix (c : commit) : string :=
  match flagIfBreaking c with
  | Some flag => if truthy flag then "(" ++ flag ++ "): " else ""
  | None => ""
  end.

(** Lines 134-140: the detail block built for every commit. *)
Definition detailBlock (c : commit) (breaking subject shorthash : string)
  : string :=
  let body := stripTrailers (body c) in
  let body := "      " ++ body in
  let body := if truthy body
              then replaceAllChar LF (nl ++ "      ") body else "" in
  let body := nl ++ "   * <details>" ++ nl ++ "      <summary>" ++ breaking
              ++ trim subject ++ " (" ++ shorthash ++ ")</summary>"
              ++ nl ++ nl ++ body in
  body ++ "</details>".

(** Lines 111-151, the body of the inner [forEach]: the line pushed for
    one commit.  [commit.hash.substring] and [subject.trim] throw on
    [undefined]. *)
Definition renderCommit (opts : options) (type prefix : string) (c : commit)
  : result string :=
  match hash c, subject c with
  | Some h, Some s =>
      let shorthash := linkHash opts type h in
      let subject := linkSubject opts type s in
      let breaking := breakingPrefix c in
      let body := detailBlock c breaking subject shorthash in
      if (type =? "breaking") && truthy body then
        if prefix =? "*"
        then Ok (" " ++ trim body)
        else Ok (prefix ++ " " ++ body)
      else Ok (prefix ++ " " ++ breaking ++ trim subject
                 ++ " (" ++ shorthash ++ ")")
  | _, _ => TypeError
  end.

(** Lines 99-153, the body of the outer [forEach]: the lines pushed for
    one category of one type. *)
Definition renderCategory (opts : options) (type : string)
           (cats : obj (list commit)) (category : string)
  : result (list string) :=
  match own cats category with
  | None => TypeError
  | Some arr =>
      let prefix := "*" in
      let nested := (1 <? List.length arr)%nat in
      let categoryHeading :=
        prefix ++ (if truthy category then " **" ++ category ++ ":**" else "") in
      if nested && truthy category then
        ls <- mapM (renderCommit opts type "  *") arr ;;
        Ok (categoryHeading :: ls)
      else
        mapM (renderCommit opts type categoryHeading) arr
  end.

(** Lines 88-156, the body of the second [.each]: the lines pushed for
    one type. *)
Definition renderType (opts : options) (types : buckets) (type : string)
  : result (list string) :=
  match own types type with
  | None => TypeError
  | Some cats =>
      ls <- mapM (renderCategory opts type cats) (keys cats) ;;
      Ok ([typeHeading opts type; ""] ++ List.concat ls ++ [""])%list
  end.

(** Lines 53-71. *)
Definition documentHeading (date : string) (version : option string)
           (opts : options) : string :=
  let heading :=
    if major opts then "##" else if minor opts then "###" else "####" in
  match version with
  | Some version =>
      if truthy version
      then heading ++ " " ++ version ++ " (" ++ date ++ ")"
      else heading ++ " " ++ date
  | None => heading ++ " " ++ date
  end.

(** The lines of [content] when the chain completes. *)
Definition markdownLines (date : string) (version : option string)
           (commits : list commit) (opts : options) : result (list string) :=
  types <- groupCommits opts commits ;;
  sections <- mapM (renderType opts types) (sort (keys types)) ;;
  Ok ([documentHeading date version opts; ""]
        ++ List.concat sections ++ [""])%list.

Definition markdown (date : string) (version : option string)
           (commits : list commit) (opts : options) : result string :=
  content <- markdownLines date version commits opts ;;
  Ok (join nl content).

(* ================================================================= *)
(** * Vocabulary of the properties

    Nothing below is part of the program: these are the notions in which
    its properties are stated, the quantities its proofs follow, and the
    inputs at which it is evaluated. *)

(** ** Text *)

(** [needle] occurs somewhere in [s]. *)
Definition contains (needle s : string) : Prop :=
  exists p q, s = p ++ needle ++ q.

(** [s] ends with [suffix]. *)
Definition endsWith (suffix s : string) : Prop :=
  exists r, s = r ++ suffix.

(** The rest of [s] after the literal text [m], when [s] starts with it. *)
Fixpoint afterPrefix (m s : string) : option string :=
  match m with
  | "" => Some s
  | String a m' =>
      match s with
      | String b t => if Ascii.eqb a b then afterPrefix m' t else None
      | "" => None
      end
  end.

(** ** Matching *)

(** A matcher that reads exactly one character of the class [p], and
    records it with [cf]. *)
Definition single (R : Type) (p : ascii -> bool)
           (cf : ascii -> captures -> captures) (r : regex) : Prop :=
  forall s c (k : string -> captures -> option R),
    run r s c k =
    match s with
    | String a t => if p a then k t (cf a c) else None
    | "" => None
    end.

(** The captures after a greedy run over the class [p]. *)
Fixpoint afterStar (p : ascii -> bool) (cf : ascii -> captures -> captures)
         (s : string) (c : captures) : captures :=
  match s with
  | String a t => if p a then afterStar p cf t (cf a c) else c
  | "" => c
  end.

(** The continuation of a whole match. *)
Definition accept : string -> captures -> option (string * captures) :=
  fun s c => Some (s, c).

(** [k] pairs [(\n)*(.)*], the groups numbered from [i]. *)
Fixpoint linePairs (i k : nat) : list regex :=
  match k with
  | O => []
  | S k' =>
      Star (Group i (lit LF)) :: Star (Group (S i) dot)
        :: linePairs (S (S i)) k'
  end.

(** The common shape of the three trailer expressions. *)
Definition trailerRegex (marker : string) (k : nat) : regex :=
  seq (plus (Group 1 (lit LF)) :: Group 2 (word marker)
         :: Star (Group 3 dot) :: linePairs 4 k).

(** ** Trailer blocks *)

(** Skip [k] times a run of line feeds and the line that follows. *)
Fixpoint skipLines (k : nat) (s : string) : string :=
  match k with
  | O => s
  | S k' => skipLines k' (dropWhile isLineChar (dropWhile (Ascii.eqb LF) s))
  end.

(** A trailer block at the start of [s]: one or more line feeds, the
    marker, the rest of the marker's line, and [k] further lines with the
    line feeds before each; the result is what follows the block. *)
Definition trailerBlock (marker : string) (k : nat) (s : string)
  : option string :=
  match s with
  | String a t =>
      if Ascii.eqb LF a then
        match afterPrefix marker (dropWhile (Ascii.eqb LF) t) with
        | Some r => Some (skipLines k (dropWhile isLineChar r))
        | None => None
        end
      else None
  | "" => None
  end.

(** What it is for [f] to strip the trailer blocks of [marker] with [k]
    further lines: scanning from the left, a block is replaced by a line
    feed and a space and the scan goes on after it; any other character
    is kept. *)
Definition stripsBlocks (marker : string) (k : nat) (f : string -> string)
  : Prop :=
  f "" = ""
  /\ (forall s rest, trailerBlock marker k s = Some rest ->
                     f s = nl ++ " " ++ f rest)
  /\ (forall a t, trailerBlock marker k (String a t) = None ->
                  f (String a t) = String a (f t)).

(** ** Links *)

(** A pull-request reference at the start of [s]: [#], a digit from 1 to
    9 and the digits that follow; the result is the number and what
    follows the reference. *)
Definition prToken (s : string) : option (string * string) :=
  match s with
  | String a (String d t) =>
      if Ascii.eqb "#" a && isNonZeroDigit d
      then Some (String d (takeWhile isDigit t), dropWhile isDigit t)
      else None
  | _ => None
  end.

(** What it is for [f] to rewrite the pull-request references with
    [link]: scanning from the left, a reference is replaced by its link
    and the scan goes on after it; any other character is kept. *)
Definition rewritesPRs (link : string -> string) (f : string -> string)
  : Prop :=
  f "" = ""
  /\ (forall s n rest, prToken s = Some (n, rest) -> f s = link n ++ f rest)
  /\ (forall a t, prToken (String a t) = None ->
                  f (String a t) = String a (f t)).



(** ** Buckets *)

(** The keys of an object in the order of their creation, when they are
    assigned in the order [l]. *)
Definition addKey (ks : list string) (k : string) : list string :=
  if existsb (String.eqb k) ks then ks else (ks ++ [k])%list.

Definition firstSeen (l : list string) : list string :=
  fold_left addKey l [].

(** The property name under which the category of a commit is filed. *)
Definition categoryKey (c : commit) : string := propertyKey (category c).

Definition sameType (opts : options) (ty : string) (c : commit) : bool :=
  resolveType opts c =? ty.

Definition inBucket (opts : options) (ty cat : string) (c : commit) : bool :=
  (resolveType opts c =? ty) && (categoryKey c =? cat).

(** The categories filed under a type, and the commits filed under a
    category; empty when there are none. *)
Definition catsOf (types : buckets) (ty : string) : obj (list commit) :=
  match own types ty with
  | Some cats => cats
  | None => []
  end.

Definition arrOf (cats : obj (list commit)) (cat : string) : list commit :=
  match own cats cat with
  | Some arr => arr
  | None => []
  end.

(** The state of [this.types] after the commits [cs] have been filed. *)
Record grouped (opts : options) (cs : list commit) (types : buckets) : Prop := {
  grouped_types :
    map fst types = firstSeen (map (resolveType opts) cs);
  grouped_categories :
    forall ty, map fst (catsOf types ty)
               = firstSeen (map categoryKey (filter (sameType opts ty) cs));
  grouped_commits :
    forall ty cat, arrOf (catsOf types ty) cat
                   = filter (inBucket opts ty cat) cs
}.

(** The commits of the bucket a commit belongs to. *)
Definition bucketOf (opts : options) (cs : list commit) (c : commit)
  : list commit :=
  filter (inBucket opts (resolveType opts c) (categoryKey c)) cs.

(** The commits in the order in which the document lists them. *)
Definition renderedCommits (types : buckets) : list commit :=
  flat_map (fun ty =>
              flat_map (fun cat => arrOf (catsOf types ty) cat)
                       (keys (catsOf types ty)))
           (sort (keys types)).

(** The order of the categories as the specification words it: the
    order in which they were first seen. *)
Definition categoriesInFirstSeenOrder (opts : options) (cs : list commit)
  : Prop :=
  forall types ty,
    groupCommits opts cs = Ok types -> In ty (keys types) ->
    keys (catsOf types ty)
    = firstSeen (map categoryKey (filter (sameType opts ty) cs)).

(** ** Orders on keys *)

Definition leStr (a b : string) : Prop := (a <=? b) = true.

Definition leIdx (a b : N * string) : Prop := (fst a <= fst b)%N.

Definition isArrayIndex (k : string) : bool :=
  match arrayIndex k with
  | Some _ => true
  | None => false
  end.

Definition indexValue (k : string) : N :=
  match arrayIndex k with
  | Some n => n
  | None => 0%N
  end.

Definition leIndexValue (a b : string) : Prop :=
  (indexValue a <= indexValue b)%N.

(** ** Lines of the document *)

(** A category is given a heading line of its own when it is named and
    holds more than one commit. *)
Definition isNested (cat : string) (n : nat) : bool :=
  (1 <? n)%nat && truthy cat.

Definition categoryLine (cat : string) : string := "*" ++ " **" ++ cat ++ ":**".

(** The bullet a commit is listed under: nested under the heading of its
    category, else flat, with the category inline when it is named. *)
Definition bulletPrefix (cat : string) (n : nat) : string :=
  if (1 <? n)%nat && truthy cat then "  *"
  else "*" ++ (if truthy cat then " **" ++ cat ++ ":**" else "").

(** The body of a commit as it is laid out inside a detail block. *)
Definition indentedBody (c : commit) : string :=
  replaceAllChar LF (nl ++ "      ") ("      " ++ stripTrailers (body c)).

(** The detail block of a commit, from its bullet on. *)
Definition detailsOf (c : commit) (subject shorthash : string) : string :=
  "* <details>" ++ nl ++ "      <summary>" ++ breakingPrefix c
    ++ trim subject ++ " (" ++ shorthash ++ ")</summary>" ++ nl ++ nl
    ++ indentedBody c ++ "</details>".

(** What comes before a detail block: a space when the bullet is the
    flat [*], else the bullet, a space and a new line indented by three. *)
Definition detailLead (prefix : string) : string :=
  if prefix =? "*" then " " else prefix ++ " " ++ nl ++ "   ".

(** The one-line entry of a commit, after its bullet. *)
Definition entryOf (c : commit) (subject shorthash : string) : string :=
  breakingPrefix c ++ trim subject ++ " (" ++ shorthash ++ ")".

(** A line that is the heading of a section. *)
Definition isSectionHeading (line : string) : bool := prefix "##### " line.

(** ** Outcomes and variations of the input *)


Definition mapResult (A B : Type) (h : A -> B) (m : result A) : result B :=
  match m with
  | Ok a => Ok (h a)
  | TypeError => TypeError
  | BuiltinWrite => BuiltinWrite
  end.


(** The same commit with another body. *)
Definition setBody (b : option string) (c : commit) : commit :=
  {| hash := hash c; type := type c; category := category c;
     subject := subject c; body := b; flagIfBreaking := flagIfBreaking c |}.

(** Replace the body of the commits that are not filed under
    [breaking]. *)
Definition rewriteBody (opts : options) (f : commit -> option string)
           (c : commit) : commit :=
  if resolveType opts c =? "breaking" then c else setBody (f c) c.

Definition mapValues (V W : Type) (h : V -> W) (o : obj V) : obj W :=
  map (fun kv => (fst kv, h (snd kv))) o.

Definition mapBuckets (g : commit -> commit) (types : buckets) : buckets :=
  mapValues (mapValues (map g)) types.

(** ** Inputs *)

Definition noOptions : options :=
  {| patch := false; minor := false; major := false;
     repoUrl := None; allowUnknown := false |}.

Definition unknownAllowed : options :=
  {| patch := false; minor := false; major := false;
     repoUrl := None; allowUnknown := true |}.

Definition withRepo (url : string) (unknown : bool) : options :=
  {| patch := false; minor := false; major := false;
     repoUrl := Some url; allowUnknown := unknown |}.

Definition mkCommit (h ty cat s : string) : commit :=
  {| hash := Some h; type := ty; category := Some cat; subject := Some s;
     body := Some ""; flagIfBreaking := None |}.

(** The commit of the documented example. *)
Definition featCommit : commit := mkCommit "1234567890" "feat" "" "add x".

Definition breakingCommit : commit :=
  {| hash := Some "abcdef1234567890"; type := "breaking";
     category := Some "api"; subject := Some "drop it (#3)";
     body := Some ("gone" ++ nl ++ nl ++ "Closes #2");
     flagIfBreaking := Some "major" |}.

Definition noHashCommit : commit :=
  {| hash := None; type := "feat"; category := Some "";
     subject := Some "add x"; body := Some ""; flagIfBreaking := None |}.

Definition noSubjectCommit : commit :=
  {| hash := Some "1234567890"; type := "feat"; category := Some "";
     subject := None; body := Some ""; flagIfBreaking := None |}.

(** A commit written [constructor: add x], and one written
    [feat(constructor): add x]. *)
Definition constructorType : commit :=
  mkCommit "1234567890" "constructor" "" "add x".

Definition constructorScope : commit :=
  mkCommit "1234567890" "feat" "constructor" "add x".

(** Two commits whose categories are array indices, the larger first. *)
Definition numberedCommits : list commit :=
  [ mkCommit "1234567890" "feat" "2" "second";
    mkCommit "abcdef1234" "feat" "1" "first" ].

(** A body with six lines after the marker of a breaking change. *)
Definition sixLines : string :=
  nl ++ "END BREAKING CHANGE" ++ nl ++ "1" ++ nl ++ "2" ++ nl ++ "3"
     ++ nl ++ "4" ++ nl ++ "5" ++ nl ++ "6".

(** ** The frame, the sections and the lines of a body *)

(** The marker of the document heading. *)
Definition headingMarker (opts : options) : string :=
  if major opts then "##" else if minor opts then "###" else "####".

(** No type and no category of the commits is the name of an inherited
    property. *)
Definition ownNames (opts : options) (cs : list commit) : Prop :=
  forall c, In c cs ->
            inherited (resolveType opts c) = false
            /\ inherited (categoryKey c) = false.

(** A type the writer makes a section of: it is not an inherited name,
    and it is a key of the catalog unless unknown types are allowed. *)
Definition sectionKey (opts : options) (k : string) : Prop :=
  inherited k = false
  /\ (allowUnknown opts = false -> exists d, own TYPES k = Some d).

(** The types and, under a type, the categories the commits are filed
    under, in the order in which they are first seen. *)
Definition sectionsOf (opts : options) (cs : list commit) : list string :=
  firstSeen (map (resolveType opts) cs).

Definition categoriesOf (opts : options) (cs : list commit) (ty : string)
  : list string :=
  firstSeen (map categoryKey (filter (sameType opts ty) cs)).

(** The categories that get a line of their own, under one type and in
    the whole document. *)
Definition nestedOf (opts : options) (cs : list commit) (ty : string)
  : list string :=
  filter (fun cat =>
            isNested cat (List.length (filter (inBucket opts ty cat) cs)))
         (categoriesOf opts cs ty).

Definition nestedBuckets (opts : options) (cs : list commit)
  : list (string * string) :=
  flat_map (fun ty => map (pair ty) (nestedOf opts cs ty)) (sectionsOf opts cs).

(** Every character of [s] is in the class [p]. *)
Fixpoint allChars (p : ascii -> bool) (s : string) : bool :=
  match s with
  | "" => true
  | String a t => p a && allChars p t
  end.

(** Any character but the line feed. *)
Definition notLF (a : ascii) : bool := negb (Ascii.eqb LF a).

(** [s] holds a pull-request reference somewhere. *)
Fixpoint hasPR (s : string) : bool :=
  match s with
  | "" => false
  | String a t =>
      match prToken s with
      | Some _ => true
      | None => hasPR t
      end
  end.

(** The indentation of the body inside a detail block. *)
Definition indent : string := "      ".

(* ================================================================= *)
(** * Commits filed on [Object.prototype]

    [groupCommits] stops at a commit whose type is the name of an
    inherited property.  What lines 80-83 do with the type [__proto__] is
    followed here: [this.types.__proto__] reads [Object.prototype] itself
    and the assignment to it creates no property, so that the array of
    the category is created on [Object.prototype], where every other
    object finds it: a later category of that name, under any type, is
    given this same array.  The other inherited names are functions,
    whose own properties depend on the engine, and a type that a commit
    has added to [Object.prototype] is an array; what is filed on those
    is not followed and the outcome is [BuiltinWrite] as before. *)

(** The value of [this.types[type][category]]: an array of the bucket
    alone, or the array that [Object.prototype] holds under the name of
    the category. *)
Inductive bucket : Type :=
| Private (arr : list commit)
| Shared.

(** [this.types], and the properties that filing has added to
    [Object.prototype]. *)
Record heap : Type := {
  thisTypes : obj (obj bucket);
  protoProps : obj (list commit)
}.

(** Line 77 when [Object.prototype] has been added to: [TYPES[commit.type]]
    finds the added array, which is truthy. *)
Definition resolveTypeOn (h : heap) (opts : options) (c : commit) : string :=
  match own (protoProps h) (type c) with
  | Some _ => type c
  | None => resolveType opts c
  end.

(** [push] on the array of [Object.prototype[category]]. *)
Definition pushShared (h : heap) (category : string) (c : commit)
  : obj (list commit) :=
  put (protoProps h) category (arrOf (protoProps h) category ++ [c])%list.

(** Lines 81-83 when [this.types[type]] is the plain object [cats]. *)
Definition fileUnder (h : heap) (type : string) (cats : obj bucket)
           (category : string) (c : commit) : result heap :=
  match own cats category with
  | Some (Private arr) =>
      Ok {| thisTypes :=
              put (thisTypes h) type (put cats category (Private (arr ++ [c])%list));
            protoProps := protoProps h |}
  | Some Shared =>
      Ok {| thisTypes := put (thisTypes h) type cats;
            protoProps := pushShared h category c |}
  | None =>
      match own (protoProps h) category with
      | Some _ =>
          Ok {| thisTypes := put (thisTypes h) type (put cats category Shared);
                protoProps := pushShared h category c |}
      | None =>
          if inherited category then TypeError
          else Ok {| thisTypes :=
                       put (thisTypes h) type (put cats category (Private [c]));
                     protoProps := protoProps h |}
      end
  end.

(** Lines 81-83 when [this.types[type]] is [Object.prototype]. *)
Definition fileOnProto (h : heap) (category : string) (c : commit)
  : result heap :=
  match own (protoProps h) category with
  | Some _ =>
      Ok {| thisTypes := thisTypes h; protoProps := pushShared h category c |}
  | None =>
      if inherited category then TypeError
      else Ok {| thisTypes := thisTypes h;
                 protoProps := put (protoProps h) category [c] |}
  end.

(** Lines 76-84 on the heap. *)
Definition addCommitOn (opts : options) (h : heap) (c : commit) : result heap :=
  let type := resolveTypeOn h opts c in
  let category := propertyKey (category c) in
  match own (thisTypes h) type with
  | Some cats => fileUnder h type cats category c
  | None =>
      if type =? "__proto__" then fileOnProto h category c
      else match own (protoProps h) type with
           | Some _ => BuiltinWrite
           | None =>
               if inherited type then BuiltinWrite
               else fileUnder h type [] category c
           end
  end.

(** The arrays that the second [.each] reads through [this.types]. *)
Definition bucketArray (h : heap) (category : string) (b : bucket)
  : list commit :=
  match b with
  | Private arr => arr
  | Shared => arrOf (protoProps h) category
  end.

Definition contents (h : heap) : buckets :=
  map (fun tc =>
         (fst tc,
          map (fun kb => (fst kb, bucketArray h (fst kb) (snd kb))) (snd tc)))
      (thisTypes h).

(** Lines 88-156 on the heap; a type that is no key of the catalog and
    that [Object.prototype] holds an array under has that array for its
    description, which is not followed. *)
Definition renderTypeOn (opts : options) (h : heap) (type : string)
  : result (list string) :=
  match own TYPES type, own (protoProps h) type with
  | None, Some _ => BuiltinWrite
  | _, _ => renderType opts (contents h) type
  end.

(** [markdown] called when [Object.prototype] holds the properties
    [added] besides its own. *)
Definition markdownLinesOn (added : obj (list commit)) (date : string)
           (version : option string) (commits : list commit) (opts : options)
  : result (list string) :=
  h <- foldM (addCommitOn opts) commits
         {| thisTypes := []; protoProps := added |} ;;
  sections <- mapM (renderTypeOn opts h) (sort (keys (thisTypes h))) ;;
  Ok ([documentHeading date version opts; ""]
        ++ List.concat sections ++ [""])%list.

Definition markdownOn (added : obj (list commit)) (date : string)
           (version : option string) (commits : list commit) (opts : options)
  : result string :=
  content <- markdownLinesOn added date version commits opts ;;
  Ok (join nl content).

(* ================================================================= *)
(** * [sort] on strings of any characters

    Without a comparator [Array.prototype.sort] compares strings by their
    UTF-16 code units, a prefix first.  A character from U+10000 on is
    two code units, the first from U+D800 to U+DBFF, so that it is sorted
    before the characters from U+E000 to U+FFFF, whose code points are
    smaller. *)

(** A string of the embedding as its code units. *)
Definition units (s : string) : list N :=
  map N_of_ascii (list_ascii_of_string s).

Fixpoint leUnits (a b : list N) : bool :=
  match a, b with
  | [], _ => true
  | _ :: _, [] => false
  | x :: a', y :: b' => if (x =? y)%N then leUnits a' b' else (x <? y)%N
  end.

Fixpoint insertUnits (x : list N) (l : list (list N)) : list (list N) :=
  match l with
  | [] => [x]
  | y :: l' => if leUnits x y then x :: l else y :: insertUnits x l'
  end.

Definition sortUnits (ks : list (list N)) : list (list N) :=
  fold_right insertUnits [] ks.

(** The code points of a sequence of code units: a surrogate pair is one
    code point. *)
Fixpoint codePoints (l : list N) : list N :=
  match l with
  | [] => []
  | hi :: l' =>
      match l' with
      | lo :: rest =>
          if ((55296 <=? hi) && (hi <=? 56319)
              && (56320 <=? lo) && (lo <=? 57343))%N
          then (65536 + (hi - 55296) * 1024 + (lo - 56320))%N :: codePoints rest
          else hi :: codePoints l'
      | [] => [hi]
      end
  end.

(* ================================================================= *)
(** * Vocabulary and inputs of the heap and of the documents *)

(** The private buckets of [types] as a heap. *)
Definition privately (types : buckets) : heap :=
  {| thisTypes := mapValues (mapValues Private) types; protoProps := [] |}.

(** Every commit carries a hash and a subject. *)
Definition complete (cs : list commit) : Prop :=
  forall c, In c cs -> hash c <> None /\ subject c <> None.

(** A commit written [__proto__(x): hidden], and a breaking change of
    the same category. *)
Definition protoCommit : commit :=
  {| hash := Some "1234567890"; type := "__proto__"; category := Some "x";
     subject := Some "hidden"; body := Some "secret"; flagIfBreaking := None |}.

Definition breakingX : commit :=
  {| hash := Some "abcdef1234567890"; type := "breaking";
     category := Some "x"; subject := Some "drop it";
     body := Some "gone"; flagIfBreaking := None |}.

(** Three commits, two of them in one named category. *)
Definition nestedCommits : list commit :=
  [ mkCommit "1111111111" "feat" "api" "one";
    mkCommit "2222222222" "fix" "" "two";
    mkCommit "3333333333" "feat" "api" "three" ].


(** A state of [this.types] with two types, and a commit for a bucket
    that is there already. *)
Definition filedTypes : buckets :=
  [ ("feat", [ ("", [featCommit]);
               ("api", [mkCommit "1111111111" "feat" "api" "one"]) ]);
    ("fix", [ ("", [mkCommit "2222222222" "fix" "" "two"]) ]) ].

Definition apiCommit : commit := mkCommit "3333333333" "feat" "api" "three".

(** The lines of the document made of [protoCommit] and [breakingX]. *)
Definition sharedLines : list string :=
  [ "#### 2024-01-24"; ""; "##### Breaking Changes :boom:"; "";
    "* **x:**";
    "  * " ++ nl ++ "   * <details>" ++ nl
      ++ "      <summary>hidden (12345678)</summary>" ++ nl ++ nl
      ++ "      secret</details>";
    "  * " ++ nl ++ "   * <details>" ++ nl
      ++ "      <summary>drop it (abcdef12)</summary>" ++ nl ++ nl
      ++ "      gone</details>";
    ""; "" ].

(* ================================================================= *)
(** * Strings and [getCommitUrl] *)

Lemma append_nil_r (s : string) : s ++ "" = s.
Proof. induction s; simpl; congruence. Qed.

Lemma append_assoc (a b c : string) : (a ++ b) ++ c = a ++ (b ++ c).
Proof. induction a; simpl; congruence. Qed.

Lemma length_append (a b : string) : length (a ++ b) = length a + length b.
Proof. induction a; simpl; congruence. Qed.

Lemma prefix_iff (a s : string) : prefix a s = true <-> exists q, s = a ++ q.
Proof.
  revert s; induction a as [|x a IH]; intros s; simpl.
  - destruct s; split; intros; eauto.
  - destruct s as [|y s]; simpl.
    + split; [discriminate | intros [q Hq]; discriminate].
    + destruct (ascii_dec x y) as [->|Hn].
      * rewrite IH. split; intros [q Hq]; exists q; congruence.
      * split; [discriminate | intros [q Hq]; congruence].
Qed.

Lemma contains_cons (needle : string) (a : ascii) (s : string) :
  contains needle (String a s) <->
  prefix needle (String a s) = true \/ contains needle s.
Proof.
  split.
  - intros [p [q H]]. destruct p as [|b p]; simpl in H.
    + left. apply prefix_iff. eauto.
    + right. exists p, q. congruence.
  - intros [H | [p [q H]]].
    + apply prefix_iff in H as [q Hq]. exists "", q. exact Hq.
    + exists (String a p), q. simpl. congruence.
Qed.

Lemma indexOfFrom_spec (needle s : string) (i : Z) :
  (0 <= i)%Z ->
  (indexOfFrom needle s i = (-1)%Z /\ ~ contains needle s)
  \/ ((i <= indexOfFrom needle s i)%Z /\ contains needle s).
Proof.
  revert i; induction s as [|a s IH]; intros i Hi; cbn [indexOfFrom].
  - destruct (prefix needle "") eqn:E.
    + right. split; [lia|]. apply prefix_iff in E as [q Hq]. exists "", q. exact Hq.
    + left. split; [reflexivity|]. intros [p [q H]].
      destruct p; simpl in H.
      * assert (prefix needle "" = true) by (apply prefix_iff; eauto). congruence.
      * discriminate.
  - destruct (prefix needle (String a s)) eqn:E.
    + right. split; [lia|]. apply contains_cons. now left.
    + destruct (IH (i + 1)%Z ltac:(lia)) as [[H1 H2] | [H1 H2]].
      * left. split; [exact H1|]. rewrite contains_cons. intros [H|H]; congruence.
      * right. split; [lia|]. apply contains_cons. now right.
Qed.

Lemma indexOf_contains (s needle : string) :
  (indexOf s needle =? -1)%Z = false <-> contains needle s.
Proof.
  unfold indexOf.
  destruct (indexOfFrom_spec needle s (i := 0%Z) ltac:(lia)) as [[H1 H2] | [H1 H2]].
  - rewrite H1. simpl. split; [discriminate | tauto].
  - split; [tauto | intros _; apply Z.eqb_neq; lia].
Qed.

Lemma not_contains s needle :
  (indexOf s needle =? -1)%Z = true -> ~ contains needle s.
Proof. intros H C. apply indexOf_contains in C. congruence. Qed.

Lemma substring_split (n : nat) (s : string) :
  n <= length s -> s = substring 0 n s ++ substring n (length s - n) s.
Proof.
  revert s; induction n as [|n IH]; intros s Hn.
  - simpl. rewrite Nat.sub_0_r.
    destruct s as [|a s]; [reflexivity|]. simpl.
    clear Hn. f_equal. induction s as [|b s IHs]; [reflexivity|].
    simpl. now rewrite <- IHs.
  - destruct s as [|a s]; simpl in *; [lia|].
    f_equal. apply IH. lia.
Qed.

Lemma substring_append_l (r x : string) : substring 0 (length r) (r ++ x) = r.
Proof.
  induction r as [|a r IH]; simpl.
  - destruct x; reflexivity.
  - now rewrite IH.
Qed.

Lemma substring_all (x : string) : substring 0 (length x) x = x.
Proof. induction x; simpl; congruence. Qed.

Lemma substring_append_r (r x : string) :
  substring (length r) (length x) (r ++ x) = x.
Proof.
  induction r as [|a r IH]; simpl.
  - apply substring_all.
  - exact IH.
Qed.

Lemma length_substring_le (n m : nat) (s : string) :
  length (substring n m s) <= length s.
Proof.
  revert n m; induction s as [|a s IH]; intros [|n] [|m]; simpl; try lia.
  - specialize (IH 0 m). lia.
  - specialize (IH n 0). lia.
  - specialize (IH n (S m)). lia.
Qed.

Lemma slice_last4 (s : string) :
  slice s (-4) None = substring (length s - 4) (length s - (length s - 4)) s.
Proof.
  unfold slice, clampIndex. change (-4 <? 0)%Z with true. cbv iota.
  f_equal; lia.
Qed.

Lemma slice_but_last4 (s : string) :
  slice s 0 (Some (-4)%Z) = substring 0 (length s - 4) s.
Proof.
  unfold slice, clampIndex.
  change (-4 <? 0)%Z with true. change (0 <? 0)%Z with false. cbv iota.
  f_equal; lia.
Qed.

Lemma slice_suffix4 (s : string) :
  (slice s (-4) None =? ".git") = true <-> endsWith ".git" s.
Proof.
  rewrite String.eqb_eq, slice_last4.
  split.
  - intros H. destruct (le_lt_dec 4 (length s)) as [L|L].
    + exists (substring 0 (length s - 4) s).
      rewrite <- H. apply substring_split. lia.
    + exfalso.
      pose proof (length_substring_le (length s - 4) (length s - (length s - 4)) s) as B.
      rewrite H in B. simpl in B. lia.
  - intros [r ->]. rewrite length_append. simpl length.
    replace (length r + 4 - 4) with (length r) by lia.
    replace (length r + 4 - length r) with (length ".git") by (simpl; lia).
    apply substring_append_r.
Qed.

Lemma slice_drop4 (r : string) : slice (r ++ ".git") 0 (Some (-4)%Z) = r.
Proof.
  rewrite slice_but_last4, length_append. simpl length.
  replace (length r + 4 - 4) with (length r) by lia.
  apply substring_append_l.
Qed.

Lemma append_inj_r (a b c : string) : a ++ c = b ++ c -> a = b.
Proof.
  revert b; induction a as [|x a IH]; intros [|y b] H; simpl in *.
  - reflexivity.
  - apply (f_equal length) in H. simpl in H. rewrite length_append in H. lia.
  - apply (f_equal length) in H. simpl in H. rewrite length_append in H. lia.
  - injection H as -> H. f_equal. now apply IH.
Qed.

(** C3.  [getCommitUrl] returns the base URL, [/], the segment, [/] and the
    hash; the segment is [commits] when the base URL mentions [bitbucket]
    and [commit] otherwise; the base loses a trailing [.git] exactly when
    the URL mentions [gitlab]; and the three documented examples hold. *)
Theorem getCommitUrl_spec (baseUrl commitHash : string) :
  (exists base segment,
      getCommitUrl baseUrl commitHash
      = base ++ "/" ++ segment ++ "/" ++ commitHash
      /\ (contains "bitbucket" baseUrl -> segment = "commits")
      /\ (~ contains "bitbucket" baseUrl -> segment = "commit")
      /\ (contains "gitlab" baseUrl -> endsWith ".git" baseUrl ->
          baseUrl = base ++ ".git")
      /\ (~ (contains "gitlab" baseUrl /\ endsWith ".git" baseUrl) ->
          base = baseUrl))
  /\ getCommitUrl "https://bitbucket.org/x/y" "abc123"
     = "https://bitbucket.org/x/y/commits/abc123"
  /\ getCommitUrl "https://github.com/x/y" "abc123"
     = "https://github.com/x/y/commit/abc123"
  /\ getCommitUrl "https://gitlab.com/x/y.git" "abc123"
     = "https://gitlab.com/x/y/commit/abc123".
Proof.
  split; [| repeat split; vm_compute; reflexivity].
  unfold getCommitUrl.
  pose proof (indexOf_contains baseUrl "bitbucket") as Hb.
  pose proof (indexOf_contains baseUrl "gitlab") as Hg.
  pose proof (slice_suffix4 baseUrl) as Hs.
  eexists. eexists. split; [reflexivity|].
  repeat split.
  - intros H. apply Hb in H. now rewrite H.
  - intros H. destruct (indexOf baseUrl "bitbucket" =? -1)%Z; [reflexivity|].
    exfalso. apply H, Hb. reflexivity.
  - intros H1 H2. apply Hg in H1. rewrite H1. apply Hs in H2 as H3. rewrite H3.
    simpl. destruct H2 as [r ->]. now rewrite slice_drop4.
  - intros H.
    destruct (indexOf baseUrl "gitlab" =? -1)%Z eqn:E1; [reflexivity|].
    destruct (slice baseUrl (-4) None =? ".git") eqn:E2; [|reflexivity].
    exfalso. apply H. split; [apply Hg; reflexivity | apply Hs; reflexivity].
Qed.

Lemma getCommitUrl_spec_witness :
  exists base segment,
    getCommitUrl "https://gitlab.com/x/y.git" "abc123"
    = base ++ "/" ++ segment ++ "/" ++ "abc123"
    /\ segment = "commit"
    /\ "https://gitlab.com/x/y.git" = base ++ ".git".
Proof.
  destruct (proj1 (getCommitUrl_spec "https://gitlab.com/x/y.git" "abc123"))
    as [base [segment [E [_ [H2 [H3 _]]]]]].
  exists base, segment. split; [exact E|]. split.
  - apply H2. apply not_contains. vm_compute. reflexivity.
  - apply H3.
    + exists "https://", ".com/x/y.git". reflexivity.
    + exists "https://gitlab.com/x/y". reflexivity.
Defined.

(* ================================================================= *)
(** * Matching *)

Section RegexFacts.
Variable R : Type.
Implicit Types (k : string -> captures -> option R).

Lemma single_Chr p : single R p (fun _ c => c) (Chr p).
Proof. intros s c k. reflexivity. Qed.

Lemma consumed_one (a : ascii) (t : string) :
  consumed (String a t) t = String a "".
Proof.
  unfold consumed. simpl length.
  replace (S (length t) - length t) with 1 by lia.
  simpl. destruct t; reflexivity.
Qed.

Lemma single_Group i p : single R p (fun a c => (i, String a "") :: c) (Group i (Chr p)).
Proof.
  intros s c k. simpl. destruct s as [|a t]; [reflexivity|].
  now rewrite consumed_one.
Qed.

Lemma length_dropWhile p s : length (dropWhile p s) <= length s.
Proof. induction s as [|a s IH]; simpl; [lia|]. destruct (p a); simpl; lia. Qed.

(** [r*] over one-character matchers takes the longest run whenever the
    continuation cannot make use of a shorter one. *)
Lemma iterate_greedy p cf r k :
  single R p cf r ->
  (forall s c, k s c <> None) \/
  (forall a t c, p a = true -> k (String a t) c = None) ->
  forall n s c, length s <= n ->
    iterate (run r) k n s c = k (dropWhile p s) (afterStar p cf s c).
Proof.
  intros Hr Hk. induction n as [|n IH]; intros s c Hn.
  - destruct s; simpl in *; [reflexivity | lia].
  - cbn [iterate]. rewrite Hr. destruct s as [|a t]; [reflexivity|].
    cbn [dropWhile afterStar]. destruct (p a) eqn:Pa; [|reflexivity].
    replace (length t <? length (String a t))%nat with true
      by (symmetry; apply Nat.ltb_lt; simpl; lia).
    rewrite IH by (simpl in Hn; lia).
    destruct (k (dropWhile p t) (afterStar p cf t (cf a c))) eqn:E; [reflexivity|].
    destruct Hk as [Hk|Hk].
    + now apply Hk in E.
    + now apply Hk.
Qed.

Lemma run_Star_greedy p cf r k s c :
  single R p cf r ->
  (forall s c, k s c <> None) \/
  (forall a t c, p a = true -> k (String a t) c = None) ->
  run (Star r) s c k = k (dropWhile p s) (afterStar p cf s c).
Proof. intros Hr Hk. simpl. now apply iterate_greedy. Qed.

Lemma run_word m s c k :
  run (word m) s c k =
  match afterPrefix m s with
  | Some rest => k rest c
  | None => None
  end.
Proof.
  revert s; induction m as [|a m IH]; intros s; simpl; [reflexivity|].
  destruct s as [|b t]; [reflexivity|].
  destruct (Ascii.eqb a b); [apply IH | reflexivity].
Qed.

Lemma iterate_total step k n s c :
  (forall s c, k s c <> None) -> iterate step k n s c <> None.
Proof.
  intros Hk. destruct n; simpl; [apply Hk|].
  destruct (step s c _); [discriminate | apply Hk].
Qed.

Lemma capture_afterStar i p s c :
  i <> 1 ->
  capture 1 (afterStar p (fun a c => (i, String a "") :: c) s c) = capture 1 c.
Proof.
  intros Hi. revert c; induction s as [|a t IH]; intros c; simpl; [reflexivity|].
  destruct (p a); [|reflexivity]. rewrite IH. simpl.
  destruct i as [|[|i]]; try reflexivity; congruence.
Qed.

Lemma capture_afterStar_1 p s c v :
  capture 1 c = Some v -> (forall a, p a = true -> String a "" = v) ->
  capture 1 (afterStar p (fun a c => (1, String a "") :: c) s c) = Some v.
Proof.
  intros Hc Hp. revert c Hc; induction s as [|a t IH]; intros c Hc; simpl; [exact Hc|].
  destruct (p a) eqn:Pa; [|exact Hc]. apply IH. simpl. f_equal. now apply Hp.
Qed.

End RegexFacts.

(** ** The trailer expressions *)

Lemma trailerBreaking_shape : trailerBreaking = trailerRegex "END BREAKING CHANGE" 4.
Proof. reflexivity. Qed.

Lemma trailerSee_shape : trailerSee = trailerRegex "See" 3.
Proof. reflexivity. Qed.

Lemma trailerCloses_shape : trailerCloses = trailerRegex "Closes" 2.
Proof. reflexivity. Qed.

Lemma accept_total : forall s c, accept s c <> None.
Proof. discriminate. Qed.

Lemma run_seq_cons (R : Type) r rs s c (k : string -> captures -> option R) :
  run (seq (r :: rs)) s c k = run r s c (fun s' c' => run (seq rs) s' c' k).
Proof. reflexivity. Qed.

Lemma run_Cat (R : Type) r1 r2 s c (k : string -> captures -> option R) :
  run (Cat r1 r2) s c k = run r1 s c (fun s' c' => run r2 s' c' k).
Proof. reflexivity. Qed.

Lemma run_Group (R : Type) i r s c (k : string -> captures -> option R) :
  run (Group i r) s c k
  = run r s c (fun s' c' => k s' ((i, consumed s s') :: c')).
Proof. reflexivity. Qed.

Lemma run_linePairs (k : nat) :
  forall i s c, 2 <= i ->
    exists c', run (seq (linePairs i k)) s c accept = Some (skipLines k s, c')
               /\ capture 1 c' = capture 1 c.
Proof.
  induction k as [|k IH]; intros i s c Hi.
  - exists c. split; reflexivity.
  - cbn [linePairs skipLines].
    assert (T : forall s c, run (seq (linePairs (S (S i)) k)) s c accept <> None).
    { intros s' c'. destruct (IH (S (S i)) s' c' ltac:(lia)) as [c3 [H3 _]].
      now rewrite H3. }
    rewrite run_seq_cons.
    rewrite (run_Star_greedy (p := Ascii.eqb LF)
               (cf := fun a c => (i, String a "") :: c)).
    2: apply single_Group.
    2: { left. intros s' c'. rewrite run_seq_cons. apply iterate_total. exact T. }
    rewrite run_seq_cons.
    rewrite (run_Star_greedy (p := isLineChar)
               (cf := fun a c => (S i, String a "") :: c)).
    2: apply single_Group.
    2: { left. exact T. }
    edestruct (IH (S (S i))) as [c3 [H3 E3]]; [lia|].
    exists c3. split; [exact H3|].
    rewrite E3. rewrite !capture_afterStar by lia. reflexivity.
Qed.

Lemma exec_trailer (marker : string) (k : nat) :
  (forall t, afterPrefix marker (String LF t) = None) ->
  forall s,
    match trailerBlock marker k s with
    | Some rest =>
        exists c, exec (trailerRegex marker k) s = Some (rest, c)
                  /\ capture 1 c = Some nl
    | None => exec (trailerRegex marker k) s = None
    end.
Proof.
  intros Hm s. unfold exec, trailerRegex, plus. fold accept.
  rewrite run_seq_cons, run_Cat.
  rewrite (single_Group 1 (Ascii.eqb LF)).
  unfold trailerBlock.
  destruct s as [|a t]; [reflexivity|].
  destruct (Ascii.eqb LF a) eqn:Ea; [|reflexivity].
  apply Ascii.eqb_eq in Ea. subst a.
  rewrite (run_Star_greedy (p := Ascii.eqb LF)
             (cf := fun a c => (1, String a "") :: c)).
  2: apply single_Group.
  2: { right. intros a t' c' Ha. apply Ascii.eqb_eq in Ha. subst a.
       rewrite run_seq_cons, run_Group, run_word, Hm. reflexivity. }
  rewrite run_seq_cons, run_Group, run_word.
  destruct (afterPrefix marker (dropWhile (Ascii.eqb LF) t)) as [r|]; [|reflexivity].
  rewrite run_seq_cons.
  rewrite (run_Star_greedy (p := isLineChar)
             (cf := fun a c => (3, String a "") :: c)).
  2: apply single_Group.
  2: { left. intros s' c'.
       destruct (run_linePairs k (i := 4) s' c' ltac:(lia)) as [c3 [H3 _]].
       now rewrite H3. }
  edestruct (run_linePairs k (i := 4)) as [c3 [H3 E3]]; [lia|].
  exists c3. split; [exact H3|].
  rewrite E3, capture_afterStar by lia.
  cbn [capture Nat.eqb].
  apply capture_afterStar_1; [reflexivity|].
  intros a Ha. apply Ascii.eqb_eq in Ha. now subst a.
Qed.

(** ** Replacement *)

Section ReplaceFacts.
Variable r : regex.
Variable f : string -> captures -> string.
Hypothesis progress :
forall s rest c, exec r s = Some (rest, c) -> length rest < length s.

Lemma replaceFrom_S n s :
  replaceFrom (S n) r f s =
  match exec r s with
  | Some (rest, c) =>
      if (length rest <? length s)%nat
      then f (consumed s rest) c ++ replaceFrom n r f rest
      else match s with
           | "" => f (consumed s rest) c
           | String a t => f (consumed s rest) c ++ String a (replaceFrom n r f t)
           end
  | None =>
      match s with
      | "" => ""
      | String a t => String a (replaceFrom n r f t)
      end
  end.
Proof. reflexivity. Qed.

Lemma replaceFrom_fuel :
  forall n m s, length s < n -> length s < m ->
    replaceFrom n r f s = replaceFrom m r f s.
Proof.
  induction n as [|n IH]; intros m s Hn Hm; [lia|].
  destruct m as [|m]; [lia|]. cbn [replaceFrom].
  destruct (exec r s) as [[rest c]|] eqn:E.
  - pose proof (progress _ E) as L.
    replace (length rest <? length s)%nat with true
      by (symmetry; now apply Nat.ltb_lt).
    f_equal. apply IH; lia.
  - destruct s as [|a t]; [reflexivity|]. f_equal. apply IH; simpl in *; lia.
Qed.

Lemma replace_nil : exec r "" = None -> replace r f "" = "".
Proof. intros E. unfold replace. cbn [replaceFrom length]. now rewrite E. Qed.

Lemma replace_match s rest c :
  exec r s = Some (rest, c) ->
  replace r f s = f (consumed s rest) c ++ replace r f rest.
Proof.
  intros E. unfold replace. rewrite replaceFrom_S, E.
  pose proof (progress _ E) as L.
  replace (length rest <? length s)%nat with true
    by (symmetry; now apply Nat.ltb_lt).
  f_equal. apply replaceFrom_fuel; lia.
Qed.

Lemma replace_skip a t :
  exec r (String a t) = None ->
  replace r f (String a t) = String a (replace r f t).
Proof.
  intros E. unfold replace. rewrite replaceFrom_S, E. reflexivity.
Qed.
End ReplaceFacts.

Lemma length_afterPrefix m s r :
  afterPrefix m s = Some r -> length r <= length s.
Proof.
  revert s; induction m as [|a m IH]; intros s H; simpl in H.
  - injection H as ->. lia.
  - destruct s as [|b t]; [discriminate|].
    destruct (Ascii.eqb a b); [|discriminate].
    apply IH in H. simpl. lia.
Qed.

Lemma length_skipLines k s : length (skipLines k s) <= length s.
Proof.
  revert s; induction k as [|k IH]; intros s; simpl; [lia|].
  etransitivity; [apply IH|].
  etransitivity; apply length_dropWhile.
Qed.

Lemma length_trailerBlock marker k s rest :
  trailerBlock marker k s = Some rest -> length rest < length s.
Proof.
  unfold trailerBlock. destruct s as [|a t]; [discriminate|].
  destruct (Ascii.eqb LF a); [|discriminate].
  destruct (afterPrefix marker (dropWhile (Ascii.eqb LF) t)) as [r|] eqn:E; [|discriminate].
  intros H. injection H as <-.
  apply length_afterPrefix in E.
  pose proof (length_skipLines k (dropWhile isLineChar r)).
  pose proof (length_dropWhile isLineChar r).
  pose proof (length_dropWhile (Ascii.eqb LF) t).
  simpl. lia.
Qed.

Lemma trailerRegex_progress marker k :
  (forall t, afterPrefix marker (String LF t) = None) ->
  forall s rest c, exec (trailerRegex marker k) s = Some (rest, c) ->
                   length rest < length s.
Proof.
  intros Hm s rest c E. pose proof (exec_trailer marker k Hm s) as X.
  destruct (trailerBlock marker k s) as [rest'|] eqn:B.
  - destruct X as [c' [E' _]]. rewrite E in E'. injection E' as -> _.
    eapply length_trailerBlock; eauto.
  - congruence.
Qed.

Lemma trailerRegex_strips marker k :
  (forall t, afterPrefix marker (String LF t) = None) ->
  stripsBlocks marker k (replace (trailerRegex marker k) dollar1space).
Proof.
  intros Hm. pose proof (trailerRegex_progress marker k Hm) as P.
  split; [|split].
  - apply replace_nil. apply (exec_trailer marker k Hm "").
  - intros s rest B. pose proof (exec_trailer marker k Hm s) as X. rewrite B in X.
    destruct X as [c [E C1]].
    rewrite (@replace_match _ dollar1space P _ _ _ E). unfold dollar1space. rewrite C1.
    now rewrite append_assoc.
  - intros a t B. pose proof (exec_trailer marker k Hm (String a t)) as X. rewrite B in X.
    now apply replace_skip.
Qed.

Lemma truthy_strips marker k f s :
  stripsBlocks marker k f -> truthy s = true -> truthy (f s) = true.
Proof.
  intros [_ [H2 H3]] Hs. destruct s as [|a t]; [discriminate|].
  destruct (trailerBlock marker k (String a t)) eqn:B.
  - rewrite (H2 _ _ B). reflexivity.
  - rewrite (H3 _ _ B). reflexivity.
Qed.

Lemma marker_breaking t : afterPrefix "END BREAKING CHANGE" (String LF t) = None.
Proof. reflexivity. Qed.

Lemma marker_see t : afterPrefix "See" (String LF t) = None.
Proof. reflexivity. Qed.

Lemma marker_closes t : afterPrefix "Closes" (String LF t) = None.
Proof. reflexivity. Qed.

(** C6, as amended: stripping the trailers of a non-empty body is three
    substitutions in this order, for [END BREAKING CHANGE], then [See],
    then [Closes]; each replaces, from left to right, every block made of
    one or more line feeds, the marker, the rest of its line and up to 4,
    3 and 2 further lines respectively (with the line feeds before each)
    by a line feed and a space, and keeps every other character; a
    missing or empty body gives the empty string. *)
Theorem stripTrailers_spec :
  stripsBlocks "END BREAKING CHANGE" 4 (replace trailerBreaking dollar1space)
  /\ stripsBlocks "See" 3 (replace trailerSee dollar1space)
  /\ stripsBlocks "Closes" 2 (replace trailerCloses dollar1space)
  /\ (forall b, b <> "" ->
        stripTrailers (Some b)
        = replace trailerCloses dollar1space
            (replace trailerSee dollar1space
               (replace trailerBreaking dollar1space b)))
  /\ stripTrailers None = ""
  /\ stripTrailers (Some "") = "".
Proof.
  pose proof (trailerRegex_strips _ 4 marker_breaking) as H1.
  pose proof (trailerRegex_strips _ 3 marker_see) as H2.
  pose proof (trailerRegex_strips _ 2 marker_closes) as H3.
  rewrite <- trailerBreaking_shape in H1.
  rewrite <- trailerSee_shape in H2.
  rewrite <- trailerCloses_shape in H3.
  repeat (split; [assumption|]).
  split; [|split; reflexivity].
  intros b Hb. unfold stripTrailers.
  assert (T0 : truthy b = true) by (destruct b; [congruence | reflexivity]).
  rewrite T0.
  rewrite (truthy_strips b H1 T0).
  rewrite (truthy_strips _ H2 (truthy_strips b H1 T0)).
  reflexivity.
Qed.

Lemma stripTrailers_spec_witness :
  stripTrailers (Some ("x" ++ nl ++ "See y"))
  = replace trailerCloses dollar1space
      (replace trailerSee dollar1space
         (replace trailerBreaking dollar1space ("x" ++ nl ++ "See y"))).
Proof.
  apply (proj1 (proj2 (proj2 (proj2 stripTrailers_spec)))).
  discriminate.
Defined.

(** C6, refuted as stated: of six lines after [END BREAKING CHANGE] the
    fifth and the sixth survive, where a block of five further lines
    would leave the sixth alone. *)
Lemma trailer_five_lines_counterexample :
  trailerBlock "END BREAKING CHANGE" 5 sixLines = Some (nl ++ "6")
  /\ stripTrailers (Some sixLines) = nl ++ " " ++ nl ++ "5" ++ nl ++ "6"
  /\ ~ stripsBlocks "END BREAKING CHANGE" 5
         (replace trailerBreaking dollar1space).
Proof.
  split; [reflexivity|]. split; [vm_compute; reflexivity|].
  intros [_ [H _]].
  specialize (H sixLines (nl ++ "6") eq_refl).
  vm_compute in H. discriminate H.
Qed.

(** ** Pull-request references *)

Lemma takeWhile_dropWhile p s : takeWhile p s ++ dropWhile p s = s.
Proof.
  induction s as [|a t IH]; simpl; [reflexivity|].
  destruct (p a); simpl; [now rewrite IH | reflexivity].
Qed.

Lemma consumed_append x rest : consumed (x ++ rest) rest = x.
Proof.
  unfold consumed. rewrite length_append.
  replace (length x + length rest - length rest) with (length x) by lia.
  apply substring_append_l.
Qed.

Lemma exec_PR s :
  exec PR_REGEX s =
  match prToken s with
  | Some (n, rest) => Some (rest, [])
  | None => None
  end.
Proof.
  unfold exec, PR_REGEX. fold accept.
  rewrite run_seq_cons. unfold lit at 1. rewrite single_Chr.
  unfold prToken.
  destruct s as [|a s]; [reflexivity|].
  destruct (Ascii.eqb "#" a); [|destruct s; reflexivity].
  rewrite run_seq_cons, single_Chr.
  destruct s as [|d t]; [reflexivity|].
  cbn [andb].
  destruct (isNonZeroDigit d); [|reflexivity].
  rewrite run_seq_cons.
  rewrite (run_Star_greedy (p := isDigit) (cf := fun _ c => c)).
  2: apply single_Chr.
  2: { left. discriminate. }
  cbn [seq run].
  f_equal. f_equal.
  clear. induction t as [|x t IH]; simpl; [reflexivity|].
  destruct (isDigit x); [exact IH | reflexivity].
Qed.

Lemma prToken_shape s n rest :
  prToken s = Some (n, rest) -> s = String "#" n ++ rest.
Proof.
  unfold prToken. destruct s as [|a [|d t]]; try discriminate.
  destruct (Ascii.eqb "#" a) eqn:Ea; [|discriminate].
  destruct (isNonZeroDigit d); [|discriminate].
  cbn [andb]. intros H. injection H as <- <-.
  apply Ascii.eqb_eq in Ea. subst a. simpl.
  now rewrite takeWhile_dropWhile.
Qed.

Lemma PR_progress s rest c :
  exec PR_REGEX s = Some (rest, c) -> length rest < length s.
Proof.
  rewrite exec_PR. destruct (prToken s) as [[n r]|] eqn:E; [|discriminate].
  intros H. injection H as <- _.
  apply prToken_shape in E. subst s. simpl. rewrite length_append.
  destruct n; simpl; lia.
Qed.


Lemma PR_rewrites (link : string -> string) :
  rewritesPRs (fun n => link (String "#" n))
              (replace PR_REGEX (fun pr _ => link pr)).
Proof.
  split; [|split].
  - reflexivity.
  - intros s n rest T. pose proof (exec_PR s) as E. rewrite T in E.
    rewrite (@replace_match _ (fun pr _ => link pr) PR_progress _ _ _ E).
    apply prToken_shape in T. subst s.
    now rewrite consumed_append.
  - intros a t T. pose proof (exec_PR (String a t)) as E. rewrite T in E.
    now apply replace_skip.
Qed.

(* ================================================================= *)
(** * Objects and buckets *)

Section ObjFacts.
Variable V : Type.
Implicit Types (o : obj V) (k : string) (v : V).

Lemma own_put_same o k v : own (put o k v) k = Some v.
Proof.
  induction o as [|[k' v'] o IH]; simpl.
  - now rewrite String.eqb_refl.
  - destruct (k =? k') eqn:E; simpl; rewrite E; [reflexivity | exact IH].
Qed.

Lemma own_put_other o k k' v : k' <> k -> own (put o k v) k' = own o k'.
Proof.
  intros N. induction o as [|[k0 v0] o IH]; simpl.
  - apply String.eqb_neq in N. now rewrite N.
  - destruct (k =? k0) eqn:E; simpl.
    + apply String.eqb_eq in E. subst k0.
      apply String.eqb_neq in N. now rewrite N.
    + destruct (k' =? k0); [reflexivity | exact IH].
Qed.

Lemma existsb_eqb_In k (ks : list string) :
  existsb (String.eqb k) ks = true <-> In k ks.
Proof.
  rewrite existsb_exists. split.
  - intros [x [Hx E]]. apply String.eqb_eq in E. now subst.
  - intros H. exists k. split; [exact H | apply String.eqb_refl].
Qed.

Lemma own_None o k : own o k = None <-> ~ In k (map fst o).
Proof.
  induction o as [|[k' v'] o IH]; simpl; [tauto|].
  destruct (k =? k') eqn:E.
  - apply String.eqb_eq in E. subst. split; [discriminate | tauto].
  - apply String.eqb_neq in E. rewrite IH. split; [intros H [H1|H1]; congruence | tauto].
Qed.

Lemma own_Some_In o k v : own o k = Some v -> In k (map fst o).
Proof.
  intros H. destruct (in_dec string_dec k (map fst o)) as [I|I]; [exact I|].
  apply own_None in I. congruence.
Qed.

Lemma keys_put o k v : map fst (put o k v) = addKey (map fst o) k.
Proof.
  unfold addKey. induction o as [|[k' v'] o IH]; simpl; [reflexivity|].
  destruct (k =? k') eqn:E; simpl; [reflexivity|].
  rewrite IH. destruct (existsb (String.eqb k) (map fst o)); reflexivity.
Qed.
End ObjFacts.

Lemma firstSeen_snoc l x : firstSeen (l ++ [x]) = addKey (firstSeen l) x.
Proof. unfold firstSeen. now rewrite fold_left_app. Qed.

Lemma In_addKey ks k x : In x (addKey ks k) <-> In x ks \/ x = k.
Proof.
  unfold addKey. destruct (existsb (String.eqb k) ks) eqn:E.
  - apply existsb_eqb_In in E. split; [tauto | intros [H | ->]; assumption].
  - rewrite in_app_iff. simpl. intuition.
Qed.

Lemma In_firstSeen l x : In x (firstSeen l) <-> In x l.
Proof.
  induction l as [|y l IH] using rev_ind; [reflexivity|].
  rewrite firstSeen_snoc, In_addKey, IH, in_app_iff. simpl. intuition.
Qed.

Lemma NoDup_addKey ks k : NoDup ks -> NoDup (addKey ks k).
Proof.
  intros H. unfold addKey. destruct (existsb (String.eqb k) ks) eqn:E; [exact H|].
  assert (~ In k ks) by (rewrite <- existsb_eqb_In; congruence).
  apply NoDup_app; [exact H | repeat constructor; simpl; tauto |].
  intros x Hx [<-|[]]. contradiction.
Qed.

Lemma NoDup_firstSeen l : NoDup (firstSeen l).
Proof.
  induction l as [|y l IH] using rev_ind; [constructor|].
  rewrite firstSeen_snoc. now apply NoDup_addKey.
Qed.

Lemma foldM_snoc (A S : Type) (f : S -> A -> result S) xs x s :
  foldM f (xs ++ [x]) s = (s' <- foldM f xs s ;; f s' x).
Proof.
  revert s; induction xs as [|y xs IH]; intros s; simpl.
  - destruct (f s x); reflexivity.
  - destruct (f s y); simpl; [apply IH | reflexivity | reflexivity].
Qed.

Lemma get_not_inherited (V : Type) (o : obj V) k :
  inherited k = false -> get o k = match own o k with Some v => Own v | None => Missing end.
Proof. intros H. unfold get. now rewrite H. Qed.

(** Filing a commit appends it to its bucket. *)
Lemma addCommit_Ok opts types c types' :
  addCommit opts types c = Ok types' ->
  types' = put types (resolveType opts c)
             (put (catsOf types (resolveType opts c)) (categoryKey c)
                  (arrOf (catsOf types (resolveType opts c)) (categoryKey c)
                     ++ [c])%list).
Proof.
  unfold addCommit, catsOf, arrOf, categoryKey, get.
  destruct (own types (resolveType opts c)) as [cats|].
  - destruct (own cats (propertyKey (category c))) as [arr|].
    + intros H. now injection H.
    + destruct (inherited (propertyKey (category c))); [discriminate|].
      intros H. now injection H.
  - destruct (inherited (resolveType opts c)); [discriminate|].
    simpl own.
    destruct (inherited (propertyKey (category c))); [discriminate|].
    intros H. now injection H.
Qed.

Lemma addCommit_total opts types c :
  inherited (resolveType opts c) = false ->
  inherited (categoryKey c) = false ->
  exists types', addCommit opts types c = Ok types'.
Proof.
  unfold addCommit, categoryKey, get. intros H1 H2. rewrite H1.
  destruct (own types (resolveType opts c)) as [cats|].
  - rewrite H2. destruct (own cats (propertyKey (category c))); eauto.
  - simpl own. rewrite H2. eauto.
Qed.

Lemma filter_snoc (A : Type) (p : A -> bool) l x :
  filter p (l ++ [x]) = (if p x then filter p l ++ [x] else filter p l)%list.
Proof.
  rewrite filter_app. simpl. destruct (p x); [reflexivity | apply app_nil_r].
Qed.

Lemma groupCommits_snoc opts cs c :
  groupCommits opts (cs ++ [c])
  = (types <- groupCommits opts cs ;; addCommit opts types c).
Proof. apply foldM_snoc. Qed.

Lemma groupCommits_grouped opts cs :
  forall types, groupCommits opts cs = Ok types -> grouped opts cs types.
Proof.
  induction cs as [|c cs IH] using rev_ind; intros types H.
  - injection H as <-. split; reflexivity.
  - rewrite groupCommits_snoc in H.
    destruct (groupCommits opts cs) as [types0| |]; try discriminate.
    simpl in H. apply addCommit_Ok in H.
    destruct (IH types0 eq_refl) as [I1 I2 I3].
    set (ty0 := resolveType opts c) in *.
    set (cat0 := categoryKey c) in *.
    assert (C : forall ty, catsOf types ty
                = if ty =? ty0
                  then put (catsOf types0 ty0) cat0
                         (arrOf (catsOf types0 ty0) cat0 ++ [c])%list
                  else catsOf types0 ty).
    { intros ty. subst types. unfold catsOf at 1.
      destruct (ty =? ty0) eqn:E.
      - apply String.eqb_eq in E. subst ty. now rewrite own_put_same.
      - apply String.eqb_neq in E. now rewrite own_put_other. }
    split.
    + subst types. rewrite keys_put, I1, map_app.
      change (map (resolveType opts) [c]) with [resolveType opts c].
      rewrite firstSeen_snoc. reflexivity.
    + intros ty. rewrite C, filter_snoc. unfold sameType at 1. fold ty0.
      rewrite (String.eqb_sym ty0 ty).
      destruct (ty =? ty0) eqn:E.
      * apply String.eqb_eq in E. subst ty.
        rewrite keys_put, I2, map_app.
        change (map categoryKey [c]) with [categoryKey c].
        rewrite firstSeen_snoc. reflexivity.
      * apply I2.
    + intros ty cat. rewrite C, filter_snoc. unfold inBucket at 1.
      fold ty0. fold cat0. rewrite (String.eqb_sym ty0 ty), (String.eqb_sym cat0 cat).
      destruct (ty =? ty0) eqn:E; cbn [andb]; [|apply I3].
      apply String.eqb_eq in E. subst ty.
      unfold arrOf at 1.
      destruct (cat =? cat0) eqn:E2.
      * apply String.eqb_eq in E2. subst cat.
        rewrite own_put_same, I3. reflexivity.
      * apply String.eqb_neq in E2. rewrite own_put_other by exact E2.
        apply I3.
Qed.

Lemma groupCommits_total opts cs :
  (forall c, In c cs ->
             inherited (resolveType opts c) = false
             /\ inherited (categoryKey c) = false) ->
  exists types, groupCommits opts cs = Ok types.
Proof.
  induction cs as [|c cs IH] using rev_ind; intros H.
  - exists []. reflexivity.
  - destruct IH as [types0 E0].
    { intros c' I. apply H, in_app_iff. now left. }
    rewrite groupCommits_snoc, E0. simpl.
    destruct (H c) as [H1 H2]; [apply in_app_iff; right; now left|].
    now apply addCommit_total.
Qed.

(** ** Sorting *)

Lemma insertKey_perm x l : Permutation (insertKey x l) (x :: l).
Proof.
  induction l as [|y l IH]; simpl; [reflexivity|].
  destruct (x <=? y); [reflexivity|].
  rewrite IH. apply perm_swap.
Qed.

Lemma sort_perm ks : Permutation (sort ks) ks.
Proof.
  induction ks as [|k ks IH]; simpl; [constructor|].
  rewrite insertKey_perm. now constructor.
Qed.

Lemma insertKey_sorted x l : Sorted leStr l -> Sorted leStr (insertKey x l).
Proof.
  induction 1 as [|y l S IH H]; simpl; [repeat constructor|].
  destruct (x <=? y) eqn:E.
  - constructor; [now constructor | now constructor].
  - assert (L : leStr y x).
    { destruct (String.leb_total x y) as [T|T]; [congruence | exact T]. }
    constructor; [exact IH|].
    destruct H as [|z l H]; simpl; [now constructor|].
    destruct (x <=? z); now constructor.
Qed.

Lemma sort_sorted ks : Sorted leStr (sort ks).
Proof.
  induction ks as [|k ks IH]; simpl; [constructor|].
  now apply insertKey_sorted.
Qed.

Lemma insertIndex_perm x l : Permutation (insertIndex x l) (x :: l).
Proof.
  induction l as [|y l IH]; simpl; [reflexivity|].
  destruct (fst x <=? fst y)%N; [reflexivity|].
  rewrite IH. apply perm_swap.
Qed.

Lemma sortIndex_perm l : Permutation (sortIndex l) l.
Proof.
  induction l as [|k l IH]; simpl; [constructor|].
  rewrite insertIndex_perm. now constructor.
Qed.

Lemma insertIndex_sorted x l : Sorted leIdx l -> Sorted leIdx (insertIndex x l).
Proof.
  induction 1 as [|y l S IH H]; simpl; [repeat constructor|].
  destruct (fst x <=? fst y)%N eqn:E.
  - apply N.leb_le in E. constructor; [now constructor | now constructor].
  - apply N.leb_gt in E.
    assert (L : leIdx y x) by (unfold leIdx; lia).
    constructor; [exact IH|].
    destruct H as [|z l H]; simpl; [now constructor|].
    destruct (fst x <=? fst z)%N; now constructor.
Qed.

Lemma sortIndex_sorted l : Sorted leIdx (sortIndex l).
Proof.
  induction l as [|k l IH]; simpl; [constructor|].
  now apply insertIndex_sorted.
Qed.

(** ** [Object.keys] *)

Section KeysFacts.
Variable V : Type.
Implicit Types (o : obj V).

Lemma nameKeys_filter o :
  nameKeys o = filter (fun k => negb (isArrayIndex k)) (map fst o).
Proof.
  induction o as [|[k v] o IH]; [reflexivity|].
  cbn [nameKeys map fst filter]. unfold isArrayIndex at 1.
  destruct (arrayIndex k); cbn [negb]; rewrite IH; reflexivity.
Qed.

Lemma indexKeys_filter o :
  map snd (indexKeys o) = filter isArrayIndex (map fst o).
Proof.
  induction o as [|[k v] o IH]; [reflexivity|].
  cbn [indexKeys map fst filter]. unfold isArrayIndex at 1.
  destruct (arrayIndex k); cbn [map snd]; rewrite IH; reflexivity.
Qed.

Lemma indexKeys_value o :
  Forall (fun x => indexValue (snd x) = fst x) (indexKeys o).
Proof.
  induction o as [|[k v] o IH]; [constructor|].
  cbn [indexKeys].
  destruct (arrayIndex k) eqn:E; [|exact IH].
  constructor; [|exact IH]. unfold indexValue. cbn [fst snd]. now rewrite E.
Qed.

Lemma sorted_map_snd (l : list (N * string)) :
  Forall (fun x => indexValue (snd x) = fst x) l ->
  Sorted leIdx l -> Sorted leIndexValue (map snd l).
Proof.
  intros F S. induction S as [|x l S IH H]; simpl; [constructor|].
  inversion F as [|? ? Fx Fl]; subst.
  constructor; [now apply IH|].
  destruct H as [|y l H]; simpl; constructor.
  inversion Fl; subst. unfold leIndexValue, leIdx in *. congruence.
Qed.

(** [Object.keys]: the array indices in ascending order, then the
    other names in the order of their creation. *)
Lemma keys_spec o :
  exists idx,
    keys o = (idx ++ filter (fun k => negb (isArrayIndex k)) (map fst o))%list
    /\ Permutation idx (filter isArrayIndex (map fst o))
    /\ Sorted leIndexValue idx.
Proof.
  exists (map snd (sortIndex (indexKeys o))). split; [|split].
  - unfold keys. now rewrite nameKeys_filter.
  - rewrite <- indexKeys_filter. apply Permutation_map, sortIndex_perm.
  - apply sorted_map_snd; [|apply sortIndex_sorted].
    eapply Permutation_Forall; [|apply indexKeys_value].
    symmetry. apply sortIndex_perm.
Qed.

Lemma filter_split (A : Type) (p : A -> bool) (l : list A) :
  Permutation (filter p l ++ filter (fun x => negb (p x)) l) l.
Proof.
  induction l as [|x l IH]; simpl; [constructor|].
  destruct (p x); simpl.
  - now constructor.
  - rewrite <- Permutation_middle. now constructor.
Qed.

Lemma keys_perm o : Permutation (keys o) (map fst o).
Proof.
  destruct (keys_spec o) as [idx [E [P _]]]. rewrite E, P.
  apply filter_split.
Qed.

Lemma In_keys o k : In k (keys o) <-> In k (map fst o).
Proof.
  split; apply Permutation_in; [|symmetry]; apply keys_perm.
Qed.

Lemma filter_all (A : Type) (p : A -> bool) (l : list A) :
  forallb p l = true -> filter p l = l.
Proof.
  induction l as [|x l IH]; simpl; [reflexivity|].
  destruct (p x); simpl; [intros H; f_equal; auto | discriminate].
Qed.

Lemma filter_none (A : Type) (p : A -> bool) (l : list A) :
  forallb (fun x => negb (p x)) l = true -> filter p l = [].
Proof.
  induction l as [|x l IH]; simpl; [reflexivity|].
  destruct (p x); simpl; [discriminate | auto].
Qed.

(** Without array indices among them, the keys come in the order of
    their creation. *)
Lemma keys_names_only o :
  forallb (fun k => negb (isArrayIndex k)) (map fst o) = true ->
  keys o = map fst o.
Proof.
  intros H. unfold keys.
  rewrite nameKeys_filter, (filter_all _ _ H).
  assert (E : indexKeys o = []).
  { apply map_eq_nil with (f := snd). rewrite indexKeys_filter.
    now apply filter_none. }
  now rewrite E.
Qed.
End KeysFacts.

(* ================================================================= *)
(** * Rendering *)

(** ** Sequencing *)

Lemma mapM_Ok (A B : Type) (f : A -> result B) xs ys :
  mapM f xs = Ok ys <-> Forall2 (fun x y => f x = Ok y) xs ys.
Proof.
  revert ys; induction xs as [|x xs IH]; intros ys; simpl.
  - split; intros H; [injection H as <-; constructor | inversion H; reflexivity].
  - split.
    + destruct (f x) as [y| |] eqn:E; simpl; try discriminate.
      destruct (mapM f xs) as [ys'| |]; simpl; try discriminate.
      intros H. injection H as <-. constructor; [exact E | now apply IH].
    + intros H. inversion H as [|? y ? ys' E F]; subst.
      rewrite E. simpl. apply IH in F. rewrite F. reflexivity.
Qed.

Lemma mapM_In (A B : Type) (f : A -> result B) xs ys x :
  mapM f xs = Ok ys -> In x xs -> exists y, f x = Ok y /\ In y ys.
Proof.
  rewrite mapM_Ok. induction 1 as [|x' y' xs ys E F IH]; intros I; [destruct I|].
  destruct I as [->|I].
  - exists y'. split; [exact E | now left].
  - destruct (IH I) as [y [E' I']]. exists y. split; [exact E' | now right].
Qed.

Lemma mapM_total (A B : Type) (f : A -> result B) xs :
  (forall x, In x xs -> exists y, f x = Ok y) -> exists ys, mapM f xs = Ok ys.
Proof.
  induction xs as [|x xs IH]; intros H; simpl; [eauto|].
  destruct (H x (or_introl eq_refl)) as [y E]. rewrite E.
  destruct IH as [ys E']; [intros x' I; apply H; now right|].
  rewrite E'. simpl. eauto.
Qed.

Lemma mapM_TypeError (A B : Type) (f : A -> result B) xs x :
  (forall x', In x' xs -> f x' <> BuiltinWrite) ->
  In x xs -> f x = TypeError -> mapM f xs = TypeError.
Proof.
  induction xs as [|x' xs IH]; intros N I E; [destruct I|]. simpl.
  destruct (f x') as [y| |] eqn:E'; simpl.
  - destruct I as [->|I]; [congruence|].
    rewrite IH; [reflexivity | intros; apply N; now right | exact I | exact E].
  - reflexivity.
  - exfalso. apply (N x'); [now left | exact E'].
Qed.

Lemma mapM_not_BuiltinWrite (A B : Type) (f : A -> result B) xs :
  (forall x', In x' xs -> f x' <> BuiltinWrite) -> mapM f xs <> BuiltinWrite.
Proof.
  induction xs as [|x' xs IH]; intros N; simpl; [discriminate|].
  destruct (f x') as [y| |] eqn:E'; simpl; try discriminate.
  - destruct (mapM f xs) eqn:M; simpl; try discriminate.
    exfalso. apply IH; [intros; apply N; now right | reflexivity].
  - exfalso. apply (N x'); [now left | exact E'].
Qed.

(** ** One commit *)

(** Bring both sides of an equation between concatenations to the same
    right-nested form. *)
Ltac norm_append :=
  unfold nl; repeat (progress cbn [append] || rewrite append_assoc).

Lemma trimEnd_append x y :
  trimEnd y = y -> y <> "" -> trimEnd (x ++ y) = x ++ y.
Proof.
  intros Hy Ny. induction x as [|a x IH]; simpl; [exact Hy|].
  rewrite IH. destruct (x ++ y) eqn:E.
  - destruct x; simpl in E; congruence.
  - simpl. now rewrite andb_false_r.
Qed.

Lemma truthy_cons a t : truthy (String a t) = true.
Proof. reflexivity. Qed.

Lemma detailBlock_eq c s sh :
  detailBlock c (breakingPrefix c) s sh = nl ++ "   " ++ detailsOf c s sh.
Proof.
  unfold detailBlock, detailsOf, indentedBody.
  cbn [append truthy isEmpty negb].
  norm_append. reflexivity.
Qed.

Lemma detailsOf_split c s sh :
  detailsOf c s sh
  = String "*" (" <details>" ++ nl ++ "      <summary>" ++ breakingPrefix c
                  ++ trim s ++ " (" ++ sh ++ ")</summary>" ++ nl ++ nl
                  ++ indentedBody c) ++ "</details>".
Proof.
  unfold detailsOf. norm_append. reflexivity.
Qed.

Lemma trim_indent core :
  trimStart core = core -> trimEnd core = core ->
  trim (nl ++ "   " ++ core) = core.
Proof.
  intros H1 H2. unfold trim. replace (trimStart (nl ++ "   " ++ core)) with (trimStart core).
  - now rewrite H1.
  - reflexivity.
Qed.

Lemma trim_detailBlock c s sh :
  trim (detailBlock c (breakingPrefix c) s sh) = detailsOf c s sh.
Proof.
  rewrite detailBlock_eq. apply trim_indent.
  - reflexivity.
  - rewrite detailsOf_split. apply trimEnd_append; [reflexivity | discriminate].
Qed.

Lemma renderCommit_breaking opts prefix c h s :
  hash c = Some h -> subject c = Some s ->
  renderCommit opts "breaking" prefix c
  = Ok ((if prefix =? "*" then " " else prefix ++ " " ++ nl ++ "   ")
          ++ detailsOf c (linkSubject opts "breaking" s)
               (linkHash opts "breaking" h)).
Proof.
  intros Hh Hs. unfold renderCommit. rewrite Hh, Hs.
  change ("breaking" =? "breaking") with true. cbn [andb].
  rewrite trim_detailBlock, detailBlock_eq.
  change (truthy (nl ++ ?x)) with true. cbv iota.
  destruct (prefix =? "*"); [reflexivity|].
  norm_append. reflexivity.
Qed.

Lemma renderCommit_plain opts ty prefix c h s :
  ty <> "breaking" -> hash c = Some h -> subject c = Some s ->
  renderCommit opts ty prefix c
  = Ok (prefix ++ " " ++ entryOf c (linkSubject opts ty s) (linkHash opts ty h)).
Proof.
  intros Ht Hh Hs. unfold renderCommit. rewrite Hh, Hs.
  apply String.eqb_neq in Ht. rewrite Ht. reflexivity.
Qed.

Lemma renderCommit_missing opts ty prefix c :
  hash c = None \/ subject c = None ->
  renderCommit opts ty prefix c = TypeError.
Proof.
  unfold renderCommit. intros [H|H]; rewrite H; [reflexivity|].
  destruct (hash c); reflexivity.
Qed.

Lemma renderCommit_present opts ty prefix c :
  hash c <> None -> subject c <> None ->
  exists line, renderCommit opts ty prefix c = Ok line.
Proof.
  intros Hh Hs. destruct (hash c) as [h|] eqn:Eh; [|congruence].
  destruct (subject c) as [s|] eqn:Es; [|congruence].
  destruct (string_dec ty "breaking") as [->|N].
  - rewrite (@renderCommit_breaking opts prefix c h s Eh Es). eauto.
  - rewrite (@renderCommit_plain opts ty prefix c h s N Eh Es). eauto.
Qed.

Lemma renderCommit_not_BuiltinWrite opts ty prefix c :
  renderCommit opts ty prefix c <> BuiltinWrite.
Proof.
  destruct (hash c) as [h|] eqn:Eh.
  - destruct (subject c) as [s|] eqn:Es.
    + destruct (@renderCommit_present opts ty prefix c) as [l E]; congruence.
    + rewrite renderCommit_missing by now right. discriminate.
  - rewrite renderCommit_missing by now left. discriminate.
Qed.

(** ** The document *)

Lemma renderCategory_inv opts ty cats cat block :
  renderCategory opts ty cats cat = Ok block ->
  exists arr ls,
    own cats cat = Some arr
    /\ mapM (renderCommit opts ty (bulletPrefix cat (List.length arr))) arr = Ok ls
    /\ block = ((if isNested cat (List.length arr) then [categoryLine cat] else [])
                  ++ ls)%list.
Proof.
  unfold renderCategory, bulletPrefix, isNested, categoryLine.
  destruct (own cats cat) as [arr|]; [|discriminate].
  intros H. exists arr.
  destruct ((1 <? List.length arr)%nat && truthy cat) eqn:E.
  - destruct (truthy cat) eqn:T; [|now rewrite andb_false_r in E].
    destruct (mapM (renderCommit opts ty "  *") arr) as [ls| |] eqn:M; try discriminate.
    injection H as <-. exists ls. repeat split; trivial.
  - exists block. repeat split; try reflexivity. exact H.
Qed.

Lemma renderType_inv opts types ty sec :
  renderType opts types ty = Ok sec ->
  exists cats blocks,
    own types ty = Some cats
    /\ mapM (renderCategory opts ty cats) (keys cats) = Ok blocks
    /\ sec = ([typeHeading opts ty; ""] ++ List.concat blocks ++ [""])%list.
Proof.
  unfold renderType. destruct (own types ty) as [cats|]; [|discriminate].
  destruct (mapM (renderCategory opts ty cats) (keys cats)) as [blocks| |] eqn:M;
    try discriminate.
  intros H. injection H as <-. exists cats, blocks. repeat split; trivial.
Qed.

Lemma markdownLines_inv date v cs opts lines :
  markdownLines date v cs opts = Ok lines ->
  exists types sections,
    groupCommits opts cs = Ok types
    /\ mapM (renderType opts types) (sort (keys types)) = Ok sections
    /\ lines = ([documentHeading date v opts; ""]
                  ++ List.concat sections ++ [""])%list.
Proof.
  unfold markdownLines.
  destruct (groupCommits opts cs) as [types| |]; try discriminate. simpl.
  destruct (mapM (renderType opts types) (sort (keys types))) as [sections| |] eqn:M;
    try discriminate.
  intros H. injection H as <-. exists types, sections. repeat split; trivial.
Qed.

Lemma markdown_inv date v cs opts doc :
  markdown date v cs opts = Ok doc ->
  exists lines, markdownLines date v cs opts = Ok lines /\ doc = join nl lines.
Proof.
  unfold markdown. destruct (markdownLines date v cs opts) as [lines| |];
    try discriminate.
  intros H. injection H as <-. eauto.
Qed.

Lemma contains_refl s : contains s s.
Proof. exists "", "". simpl. now rewrite append_nil_r. Qed.

Lemma contains_append_l needle a b : contains needle a -> contains needle (a ++ b).
Proof.
  intros [p [q ->]]. exists p, (q ++ b). now rewrite !append_assoc.
Qed.

Lemma contains_append_r needle a b : contains needle b -> contains needle (a ++ b).
Proof.
  intros [p [q ->]]. exists (a ++ p), q. now rewrite !append_assoc.
Qed.

Lemma contains_trans a b c : contains a b -> contains b c -> contains a c.
Proof.
  intros [p [q ->]] H. destruct H as [p' [q' ->]].
  exists (p' ++ p), (q ++ q'). now rewrite !append_assoc.
Qed.

Lemma join_In sep ls x : In x ls -> contains x (join sep ls).
Proof.
  unfold join. induction ls as [|y ls IH]; intros I; [destruct I|].
  simpl. destruct ls as [|z ls].
  - destruct I as [->|[]]. apply contains_refl.
  - destruct I as [->|I].
    + apply contains_append_l, contains_refl.
    + apply contains_append_r, contains_append_r, IH, I.
Qed.

Lemma In_concat_intro (A : Type) (ls : list (list A)) l x :
  In l ls -> In x l -> In x (List.concat ls).
Proof. intros H1 H2. apply in_concat. eauto. Qed.

Lemma own_In_Some (V : Type) (o : obj V) k :
  In k (map fst o) -> exists v, own o k = Some v.
Proof.
  intros I. destruct (own o k) as [v|] eqn:E; [eauto|].
  apply own_None in E. contradiction.
Qed.

Lemma catsOf_own types ty cats : own types ty = Some cats -> catsOf types ty = cats.
Proof. unfold catsOf. now intros ->. Qed.

Lemma arrOf_own cats cat arr : own cats cat = Some arr -> arrOf cats cat = arr.
Proof. unfold arrOf. now intros ->. Qed.

Lemma inBucket_self opts c :
  inBucket opts (resolveType opts c) (categoryKey c) c = true.
Proof. unfold inBucket. now rewrite !String.eqb_refl. Qed.

Lemma sameType_self opts c : sameType opts (resolveType opts c) c = true.
Proof. unfold sameType. apply String.eqb_refl. Qed.

(** Every line pushed for a commit is part of the lines of the document. *)
Lemma markdownLines_commit date v cs opts lines c :
  markdownLines date v cs opts = Ok lines -> In c cs ->
  exists line,
    renderCommit opts (resolveType opts c)
      (bulletPrefix (categoryKey c) (List.length (bucketOf opts cs c))) c
    = Ok line
    /\ In line lines.
Proof.
  intros H I.
  destruct (@markdownLines_inv _ _ _ _ _ H) as [types [sections [G [M ->]]]].
  pose proof (@groupCommits_grouped _ _ _ G) as [I1 I2 I3].
  set (ty := resolveType opts c). set (cat := categoryKey c).
  assert (Ity : In ty (sort (keys types))).
  { apply (Permutation_in (l:=keys types)); [symmetry; apply sort_perm|].
    apply In_keys. rewrite I1, In_firstSeen. now apply in_map. }
  destruct (@mapM_In _ _ _ _ _ _ M Ity) as [sec [Rsec Isec]].
  destruct (@renderType_inv _ _ _ _ Rsec) as [cats [blocks [Ocats [Mb ->]]]].
  pose proof (@catsOf_own _ _ _ Ocats) as Ecats.
  assert (Icat : In cat (keys cats)).
  { apply In_keys. rewrite <- Ecats, I2, In_firstSeen.
    apply in_map, filter_In. split; [exact I | apply sameType_self]. }
  destruct (@mapM_In _ _ _ _ _ _ Mb Icat) as [block [Rb Ib]].
  destruct (@renderCategory_inv _ _ _ _ _ Rb) as [arr [ls [Oarr [Ml ->]]]].
  pose proof (@arrOf_own _ _ _ Oarr) as Earr.
  assert (A : arr = bucketOf opts cs c).
  { rewrite <- Earr, <- Ecats. apply I3. }
  assert (Ic : In c arr).
  { rewrite A. apply filter_In. split; [exact I | apply inBucket_self]. }
  destruct (@mapM_In _ _ _ _ _ _ Ml Ic) as [line [Rl Il]].
  exists line. split.
  - rewrite <- A. exact Rl.
  - apply in_or_app. right. apply in_or_app. left.
    eapply In_concat_intro; [exact Isec|].
    apply in_or_app. right. apply in_or_app. left.
    eapply In_concat_intro; [exact Ib|].
    apply in_or_app. now right.
Qed.

Lemma markdown_commit date v cs opts doc c :
  markdown date v cs opts = Ok doc -> In c cs ->
  exists line,
    renderCommit opts (resolveType opts c)
      (bulletPrefix (categoryKey c) (List.length (bucketOf opts cs c))) c
    = Ok line
    /\ contains line doc.
Proof.
  intros H I. destruct (@markdown_inv _ _ _ _ _ H) as [lines [L ->]].
  destruct (@markdownLines_commit _ _ _ _ _ c L I) as [line [R Il]].
  exists line. split; [exact R | now apply join_In].
Qed.

(** ** When the writer returns *)

Lemma bucket_commit opts cs types ty cats cat arr c :
  groupCommits opts cs = Ok types ->
  own types ty = Some cats -> own cats cat = Some arr -> In c arr ->
  In c cs /\ resolveType opts c = ty /\ categoryKey c = cat.
Proof.
  intros G Ot Oc I.
  pose proof (@groupCommits_grouped _ _ _ G) as [_ _ I3].
  specialize (I3 ty cat).
  rewrite (@catsOf_own _ _ _ Ot), (@arrOf_own _ _ _ Oc) in I3. subst arr.
  apply filter_In in I as [I B]. unfold inBucket in B.
  apply andb_true_iff in B as [B1 B2].
  apply String.eqb_eq in B1, B2. auto.
Qed.

Lemma renderCategory_total opts cs types ty cats cat :
  groupCommits opts cs = Ok types -> own types ty = Some cats ->
  In cat (keys cats) ->
  (forall c, In c cs -> hash c <> None /\ subject c <> None) ->
  exists block, renderCategory opts ty cats cat = Ok block.
Proof.
  intros G Ot Ic P. apply In_keys, own_In_Some in Ic as [arr Oa].
  unfold renderCategory. rewrite Oa.
  assert (T : forall prefix, exists ls,
               mapM (renderCommit opts ty prefix) arr = Ok ls).
  { intros prefix. apply mapM_total. intros c I.
    destruct (@bucket_commit _ _ _ _ _ _ _ _ G Ot Oa I) as [I' _].
    destruct (P c I'). now apply renderCommit_present. }
  destruct ((1 <? List.length arr)%nat && truthy cat).
  - destruct (T "  *") as [ls ->]. simpl. eauto.
  - apply T.
Qed.

Lemma renderType_total opts cs types ty :
  groupCommits opts cs = Ok types -> In ty (keys types) ->
  (forall c, In c cs -> hash c <> None /\ subject c <> None) ->
  exists sec, renderType opts types ty = Ok sec.
Proof.
  intros G It P. apply In_keys, own_In_Some in It as [cats Ot].
  unfold renderType. rewrite Ot.
  destruct (@mapM_total _ _ (renderCategory opts ty cats) (keys cats)) as [bs ->].
  - intros cat Ic. eapply renderCategory_total; eauto.
  - simpl. eauto.
Qed.

Lemma renderCategory_not_BuiltinWrite opts ty cats cat :
  renderCategory opts ty cats cat <> BuiltinWrite.
Proof.
  unfold renderCategory. destruct (own cats cat) as [arr|]; [|discriminate].
  assert (N : forall prefix,
             mapM (renderCommit opts ty prefix) arr <> BuiltinWrite).
  { intros prefix. apply mapM_not_BuiltinWrite. intros.
    apply renderCommit_not_BuiltinWrite. }
  destruct ((1 <? List.length arr)%nat && truthy cat); [|apply N].
  specialize (N "  *").
  destruct (mapM (renderCommit opts ty "  *") arr); simpl; congruence.
Qed.

Lemma renderType_not_BuiltinWrite opts types ty :
  renderType opts types ty <> BuiltinWrite.
Proof.
  unfold renderType. destruct (own types ty) as [cats|]; [|discriminate].
  pose proof (@mapM_not_BuiltinWrite _ _ (renderCategory opts ty cats) (keys cats)
                (fun x _ => @renderCategory_not_BuiltinWrite opts ty cats x)) as N.
  destruct (mapM (renderCategory opts ty cats) (keys cats)); simpl; congruence.
Qed.

Lemma markdown_after_grouping date v cs opts types :
  groupCommits opts cs = Ok types ->
  markdown date v cs opts <> BuiltinWrite.
Proof.
  intros G. unfold markdown, markdownLines. rewrite G. simpl.
  pose proof (@mapM_not_BuiltinWrite _ _ (renderType opts types) (sort (keys types))
                (fun x _ => @renderType_not_BuiltinWrite opts types x)) as N.
  destruct (mapM (renderType opts types) (sort (keys types))); simpl; congruence.
Qed.

(** [markdown] returns a document exactly when every commit could be
    filed and carries a hash and a subject. *)
Lemma markdown_Ok_iff date v cs opts :
  (exists doc, markdown date v cs opts = Ok doc)
  <-> (exists types, groupCommits opts cs = Ok types)
      /\ (forall c, In c cs -> hash c <> None /\ subject c <> None).
Proof.
  split.
  - intros [doc H]. split.
    + destruct (@markdown_inv _ _ _ _ _ H) as [lines [L _]].
      destruct (@markdownLines_inv _ _ _ _ _ L) as [types [_ [G _]]]. eauto.
    + intros c I. destruct (@markdown_commit _ _ _ _ _ c H I) as [line [R _]].
      destruct (hash c) eqn:Eh.
      * destruct (subject c) eqn:Es; [split; discriminate|].
        rewrite renderCommit_missing in R by now right. discriminate.
      * rewrite renderCommit_missing in R by now left. discriminate.
  - intros [[types G] P]. unfold markdown, markdownLines. rewrite G. simpl.
    destruct (@mapM_total _ _ (renderType opts types) (sort (keys types))) as [ss ->].
    + intros ty It. eapply renderType_total; eauto.
      apply (Permutation_in (l:=sort (keys types))); [apply sort_perm | exact It].
    + simpl. eauto.
Qed.




(* ================================================================= *)
(** * Detail blocks *)

(** C1, refuted as stated: the commit of the documented example, of type
    [feat], is rendered without any detail block. *)
Lemma detail_block_counterexample :
  exists doc,
    markdown "2024-01-24" (Some "1.0.0") [featCommit] noOptions = Ok doc
    /\ ~ contains "<details>" doc.
Proof.
  eexists. split; [vm_compute; reflexivity|].
  apply not_contains. vm_compute. reflexivity.
Qed.

(* ================================================================= *)
(** * Links *)









(* ================================================================= *)
(** * Failures *)

(** C9, refuted as stated: a commit without a hash, or without a subject,
    is not rendered with a blank in its place; the call is rejected. *)
Lemma missing_field_counterexample :
  markdown "2024-01-24" None [noHashCommit] noOptions = TypeError
  /\ markdown "2024-01-24" None [noSubjectCommit] noOptions = TypeError.
Proof. split; vm_compute; reflexivity. Qed.

(** C9, as amended: when no type and no category is the name of an
    inherited property, the writer returns a document for every list of
    commits that each carry a hash and a subject, and rejects with a
    [TypeError] every list with a commit that lacks one of them. *)
Theorem markdown_total_on_complete_commits date v cs opts :
  (forall c, In c cs ->
             inherited (resolveType opts c) = false
             /\ inherited (categoryKey c) = false) ->
  ((forall c, In c cs -> hash c <> None /\ subject c <> None) ->
   exists doc, markdown date v cs opts = Ok doc)
  /\ ((exists c, In c cs /\ (hash c = None \/ subject c = None)) ->
      markdown date v cs opts = TypeError).
Proof.
  intros Names. destruct (@groupCommits_total opts cs Names) as [types G].
  split.
  - intros P. apply markdown_Ok_iff. eauto.
  - intros [c [I M]].
    destruct (markdown date v cs opts) as [doc| |] eqn:E.
    + exfalso.
      assert (X : exists doc, markdown date v cs opts = Ok doc) by eauto.
      apply markdown_Ok_iff in X as [_ P]. destruct (P c I) as [P1 P2].
      destruct M; contradiction.
    + reflexivity.
    + exfalso. eapply markdown_after_grouping; eauto.
Qed.

Lemma markdown_total_on_complete_commits_witness :
  (exists doc, markdown "2024-01-24" None [featCommit] noOptions = Ok doc)
  /\ markdown "2024-01-24" None [featCommit; noHashCommit] noOptions = TypeError.
Proof.
  split.
  - refine (proj1 (@markdown_total_on_complete_commits
                     "2024-01-24" None [featCommit] noOptions _) _).
    + intros c [<-|[]]. split; reflexivity.
    + intros c [<-|[]]. split; discriminate.
  - refine (proj2 (@markdown_total_on_complete_commits
                     "2024-01-24" None [featCommit; noHashCommit] noOptions _) _).
    + intros c [<-|[<-|[]]]; split; reflexivity.
    + exists noHashCommit. split; [right; left; reflexivity | left; reflexivity].
Defined.

(** The resolution of the type token, for tokens that are not the name
    of an inherited property. *)
Lemma resolveType_known opts c d :
  own TYPES (type c) = Some d -> resolveType opts c = type c.
Proof.
  intros H. unfold resolveType, get. rewrite H.
  assert (T : truthy d = true).
  { revert H. generalize (type c). intros k. simpl.
    repeat (destruct (k =? _); [intros E; injection E as <-; reflexivity|]).
    discriminate. }
  cbn [truthyLookup]. now rewrite T.
Qed.

Lemma resolveType_unknown opts c :
  own TYPES (type c) = None -> inherited (type c) = false ->
  resolveType opts c = (if allowUnknown opts then type c else "other")
  /\ typeHeading opts (resolveType opts c)
     = if allowUnknown opts
       then "##### " ++ TYPES_other ++ " (" ++ type c ++ ")"
       else "##### " ++ TYPES_other.
Proof.
  intros H N. unfold resolveType, typeHeading, get. rewrite H, N.
  cbn [truthyLookup orb]. destruct (allowUnknown opts).
  - rewrite H, N. split; reflexivity.
  - split; reflexivity.
Qed.

(** C2 at the failing input: the token [constructor] is not a key of the
    catalog, yet it is resolved to itself when unknown types are not
    allowed, and its heading is not the one of [other]. *)
Theorem resolveType_inherited_name :
  own TYPES "constructor" = None
  /\ resolveType noOptions constructorType = "constructor"
  /\ typeHeading unknownAllowed (resolveType unknownAllowed constructorType)
     = "##### function Object() { [native code] }"
  /\ markdown "2024-01-24" None [constructorType] noOptions = BuiltinWrite.
Proof. repeat split; vm_compute; reflexivity. Qed.

(** C4 at the failing input: the commit [feat(constructor): add x] is
    filed in no bucket and no document is rendered. *)
Theorem inherited_category_rejected :
  groupCommits noOptions [constructorScope] = TypeError
  /\ markdown "2024-01-24" None [constructorScope] noOptions = TypeError.
Proof. split; vm_compute; reflexivity. Qed.

(* ================================================================= *)
(** * The partition into buckets *)

Section Partition.
Variable A : Type.
Variable g : A -> string.

Lemma filter_or_disjoint (p q : A -> bool) (l : list A) :
  (forall x, In x l -> p x = true -> q x = false) ->
  Permutation (filter p l ++ filter q l) (filter (fun x => p x || q x) l).
Proof.
  induction l as [|x l IH]; intros D; simpl; [constructor|].
  assert (D' : forall y, In y l -> p y = true -> q y = false)
    by (intros; apply D; [now right | assumption]).
  destruct (p x) eqn:P; simpl.
  - rewrite (D x (or_introl eq_refl) P). constructor. now apply IH.
  - destruct (q x); [|now apply IH].
    rewrite <- Permutation_middle. constructor. now apply IH.
Qed.

Lemma flat_map_filter_keys (K : list string) (l : list A) :
  NoDup K ->
  Permutation (flat_map (fun k => filter (fun x => g x =? k) l) K)
              (filter (fun x => existsb (String.eqb (g x)) K) l).
Proof.
  induction 1 as [|k K N ND IH]; simpl.
  - induction l; simpl; [constructor | assumption].
  - rewrite IH. apply filter_or_disjoint.
    intros x _ E. apply String.eqb_eq in E. subst k.
    destruct (existsb (String.eqb (g x)) K) eqn:X; [|reflexivity].
    apply existsb_eqb_In in X. contradiction.
Qed.

Lemma partition_by_key (K : list string) (l : list A) :
  NoDup K -> (forall x, In x l -> In (g x) K) ->
  Permutation (flat_map (fun k => filter (fun x => g x =? k) l) K) l.
Proof.
  intros N C. rewrite flat_map_filter_keys by exact N.
  rewrite filter_all; [reflexivity|].
  apply forallb_forall. intros x I. apply existsb_eqb_In, C, I.
Qed.
End Partition.

Lemma Permutation_flat_map_ext (A B : Type) (f h : A -> list B) (l : list A) :
  (forall x, In x l -> Permutation (f x) (h x)) ->
  Permutation (flat_map f l) (flat_map h l).
Proof.
  induction l as [|x l IH]; intros H; simpl; [constructor|].
  apply Permutation_app; [apply H; now left | apply IH; intros; apply H; now right].
Qed.

Lemma filter_filter (A : Type) (p q : A -> bool) (l : list A) :
  filter q (filter p l) = filter (fun x => p x && q x) l.
Proof.
  induction l as [|x l IH]; simpl; [reflexivity|].
  destruct (p x); simpl; [destruct (q x); simpl; congruence | exact IH].
Qed.

Lemma NoDup_keys (V : Type) (o : obj V) : NoDup (map fst o) -> NoDup (keys o).
Proof.
  intros N. eapply Permutation_NoDup; [|exact N]. symmetry. apply keys_perm.
Qed.

(** Every commit is filed in exactly one bucket, in its place among the
    commits of that bucket, and listed once. *)
Theorem groupCommits_partition opts cs types :
  groupCommits opts cs = Ok types ->
  (forall ty cat, arrOf (catsOf types ty) cat
                  = filter (inBucket opts ty cat) cs)
  /\ NoDup (keys types)
  /\ (forall ty, NoDup (keys (catsOf types ty)))
  /\ Permutation (renderedCommits types) cs.
Proof.
  intros G. pose proof (@groupCommits_grouped _ _ _ G) as [I1 I2 I3].
  assert (N1 : NoDup (keys types)).
  { apply NoDup_keys. rewrite I1. apply NoDup_firstSeen. }
  assert (N2 : forall ty, NoDup (keys (catsOf types ty))).
  { intros ty. apply NoDup_keys. rewrite I2. apply NoDup_firstSeen. }
  repeat split; try assumption.
  unfold renderedCommits.
  transitivity (flat_map (fun ty => filter (fun c => resolveType opts c =? ty) cs)
                         (sort (keys types))).
  - apply Permutation_flat_map_ext. intros ty _.
    transitivity (flat_map
                    (fun cat => filter (fun c => categoryKey c =? cat)
                                  (filter (sameType opts ty) cs))
                    (keys (catsOf types ty))).
    + apply Permutation_flat_map_ext. intros cat _.
      rewrite I3, filter_filter. reflexivity.
    + apply partition_by_key; [apply N2|].
      intros c I. apply In_keys. rewrite I2, In_firstSeen. now apply in_map.
  - apply partition_by_key.
    + eapply Permutation_NoDup; [|exact N1]. symmetry. apply sort_perm.
    + intros c I. apply (Permutation_in (l := keys types)); [symmetry; apply sort_perm|].
      apply In_keys. rewrite I1, In_firstSeen. now apply in_map.
Qed.

(* ================================================================= *)
(** * The order of the sections *)

Lemma not_heading_head a t :
  a <> "#"%char -> isSectionHeading (String a t) = false.
Proof.
  intros N. unfold isSectionHeading.
  destruct (prefix "##### " (String a t)) eqn:E; [|reflexivity].
  apply prefix_iff in E as [q E]. simpl in E. injection E as E _. congruence.
Qed.

Lemma bulletPrefix_head cat n :
  exists a t, bulletPrefix cat n = String a t /\ a <> "#"%char.
Proof.
  unfold bulletPrefix. destruct ((1 <? n)%nat && truthy cat).
  - eexists. eexists. split; [reflexivity | discriminate].
  - eexists. eexists. split; [reflexivity | discriminate].
Qed.

Lemma renderCommit_not_heading opts ty cat n c line :
  renderCommit opts ty (bulletPrefix cat n) c = Ok line ->
  isSectionHeading line = false.
Proof.
  intros R.
  destruct (hash c) as [h|] eqn:Eh;
    [|rewrite renderCommit_missing in R by (now left); discriminate].
  destruct (subject c) as [s|] eqn:Es;
    [|rewrite renderCommit_missing in R by (now right); discriminate].
  destruct (bulletPrefix_head cat n) as [a [t [E N]]].
  destruct (string_dec ty "breaking") as [->|Nb].
  - rewrite (@renderCommit_breaking opts _ c h s Eh Es) in R.
    injection R as <-. destruct (bulletPrefix cat n =? "*").
    + now apply not_heading_head.
    + rewrite E. now apply not_heading_head.
  - rewrite (@renderCommit_plain opts ty _ c h s Nb Eh Es) in R.
    injection R as <-. rewrite E. now apply not_heading_head.
Qed.

Lemma filter_heading_commits opts ty cat n arr ls :
  mapM (renderCommit opts ty (bulletPrefix cat n)) arr = Ok ls ->
  filter isSectionHeading ls = [].
Proof.
  rewrite mapM_Ok. induction 1 as [|c l cs ls R F IH]; simpl; [reflexivity|].
  now rewrite (@renderCommit_not_heading _ _ _ _ _ _ R).
Qed.

Lemma filter_heading_block opts ty cats cat block :
  renderCategory opts ty cats cat = Ok block ->
  filter isSectionHeading block = [].
Proof.
  intros R. destruct (@renderCategory_inv _ _ _ _ _ R) as [arr [ls [_ [M ->]]]].
  rewrite filter_app, (@filter_heading_commits _ _ _ _ _ _ M), app_nil_r.
  destruct (isNested cat (List.length arr)); reflexivity.
Qed.

Lemma filter_heading_blocks opts ty cats ks blocks :
  mapM (renderCategory opts ty cats) ks = Ok blocks ->
  filter isSectionHeading (List.concat blocks) = [].
Proof.
  rewrite mapM_Ok. induction 1 as [|k b ks bs R F IH]; simpl; [reflexivity|].
  now rewrite filter_app, (@filter_heading_block _ _ _ _ _ R), IH.
Qed.

Lemma typeHeading_isSectionHeading opts ty :
  isSectionHeading (typeHeading opts ty) = true.
Proof.
  apply prefix_iff. unfold typeHeading. eexists. reflexivity.
Qed.

Lemma filter_heading_section opts types ty sec :
  renderType opts types ty = Ok sec ->
  filter isSectionHeading sec = [typeHeading opts ty].
Proof.
  intros R. destruct (@renderType_inv _ _ _ _ R) as [cats [blocks [_ [M ->]]]].
  cbn [app filter]. rewrite typeHeading_isSectionHeading.
  rewrite filter_app, (@filter_heading_blocks _ _ _ _ _ M). reflexivity.
Qed.

Lemma filter_heading_sections opts types ks sections :
  mapM (renderType opts types) ks = Ok sections ->
  filter isSectionHeading (List.concat sections) = map (typeHeading opts) ks.
Proof.
  rewrite mapM_Ok. induction 1 as [|k s ks ss R F IH]; simpl; [reflexivity|].
  now rewrite filter_app, (@filter_heading_section _ _ _ _ R), IH.
Qed.

Lemma documentHeading_not_heading date v opts :
  isSectionHeading (documentHeading date v opts) = false.
Proof.
  unfold documentHeading.
  destruct (major opts), (minor opts), v as [[|a v]|]; reflexivity.
Qed.

Lemma numberedCommits_lines :
  markdownLines "2024-01-24" None numberedCommits noOptions
  = Ok [ "#### 2024-01-24"; ""; "##### New Features :sparkles:"; "";
         "* **1:** first (abcdef12)"; "* **2:** second (12345678)"; ""; "" ].
Proof. vm_compute. reflexivity. Qed.

(** C5, refuted as stated: with the categories [2] and [1] seen in this
    order, the document lists [1] before [2]. *)
Lemma category_order_counterexample :
  markdownLines "2024-01-24" None numberedCommits noOptions
  = Ok [ "#### 2024-01-24"; ""; "##### New Features :sparkles:"; "";
         "* **1:** first (abcdef12)"; "* **2:** second (12345678)"; ""; "" ]
  /\ firstSeen (map categoryKey numberedCommits) = ["2"; "1"]
  /\ ~ categoriesInFirstSeenOrder noOptions numberedCommits.
Proof.
  split; [exact numberedCommits_lines|]. split; [reflexivity|].
  intros H.
  specialize (H [("feat", [("2", [mkCommit "1234567890" "feat" "2" "second"]);
                            ("1", [mkCommit "abcdef1234" "feat" "1" "first"])])]
                "feat" eq_refl (or_introl eq_refl)).
  vm_compute in H. discriminate H.
Qed.

(** The headings of a document and the order of its categories. *)
Lemma section_order_Ok date v cs opts lines :
  markdownLines date v cs opts = Ok lines ->
  exists types,
    groupCommits opts cs = Ok types
    /\ filter isSectionHeading lines
       = map (typeHeading opts) (sort (keys types))
    /\ Sorted leStr (sort (keys types))
    /\ Permutation (sort (keys types))
                   (firstSeen (map (resolveType opts) cs))
    /\ forall ty, In ty (keys types) ->
         let seen := firstSeen (map categoryKey (filter (sameType opts ty) cs)) in
         (exists blocks,
             Forall2 (fun cat block =>
                        renderCategory opts ty (catsOf types ty) cat = Ok block)
                     (keys (catsOf types ty)) blocks
             /\ renderType opts types ty
                = Ok ([typeHeading opts ty; ""] ++ List.concat blocks ++ [""])%list)
         /\ (exists idx,
                keys (catsOf types ty)
                = (idx ++ filter (fun k => negb (isArrayIndex k)) seen)%list
                /\ Permutation idx (filter isArrayIndex seen)
                /\ Sorted leIndexValue idx)
         /\ (forallb (fun k => negb (isArrayIndex k)) seen = true ->
             keys (catsOf types ty) = seen).
Proof.
  intros H.
  destruct (@markdownLines_inv _ _ _ _ _ H) as [types [sections [G [M ->]]]].
  pose proof (@groupCommits_grouped _ _ _ G) as [I1 I2 I3].
  exists types. split; [exact G|]. split; [|split; [|split]].
  - cbn [app filter]. rewrite documentHeading_not_heading.
    rewrite filter_app, (@filter_heading_sections _ _ _ _ M). cbn.
    now rewrite app_nil_r.
  - apply sort_sorted.
  - rewrite sort_perm, <- I1. apply keys_perm.
  - intros ty It seen. split; [|split].
    + assert (Is : In ty (sort (keys types))).
      { apply (Permutation_in (l := keys types)); [symmetry; apply sort_perm | exact It]. }
      destruct (@mapM_In _ _ _ _ _ _ M Is) as [sec [R _]].
      destruct (@renderType_inv _ _ _ _ R) as [cats [blocks [O [Mb ->]]]].
      rewrite (@catsOf_own _ _ _ O). exists blocks. split; [|exact R].
      now apply mapM_Ok.
    + destruct (keys_spec (catsOf types ty)) as [idx [E [P S]]].
      rewrite I2 in E, P. exists idx. auto.
    + intros F. rewrite keys_names_only; rewrite I2; [reflexivity | exact F].
Qed.

(* ================================================================= *)
(** * The body of a commit outside [breaking] *)

Section MapValues.
Variables (V W : Type) (h : V -> W).

Lemma own_mapValues (o : obj V) k :
  own (mapValues h o) k = option_map h (own o k).
Proof.
  induction o as [|[k' v] o IH]; simpl; [reflexivity|].
  destruct (k =? k'); [reflexivity | exact IH].
Qed.

Lemma put_mapValues (o : obj V) k v :
  put (mapValues h o) k (h v) = mapValues h (put o k v).
Proof.
  induction o as [|[k' v'] o IH]; simpl; [reflexivity|].
  destruct (k =? k'); simpl; [reflexivity | now rewrite IH].
Qed.

Lemma fst_mapValues (o : obj V) : map fst (mapValues h o) = map fst o.
Proof. unfold mapValues. rewrite map_map. reflexivity. Qed.

Lemma indexKeys_fst (A B : Type) (o : obj A) (o' : obj B) :
  map fst o = map fst o' -> indexKeys o = indexKeys o'.
Proof.
  revert o'; induction o as [|[k a] o IH]; intros [|[k' b] o'] E;
    try discriminate; [reflexivity|].
  simpl in E. injection E as -> E. simpl. now rewrite (IH o' E).
Qed.

Lemma nameKeys_fst (A B : Type) (o : obj A) (o' : obj B) :
  map fst o = map fst o' -> nameKeys o = nameKeys o'.
Proof.
  revert o'; induction o as [|[k a] o IH]; intros [|[k' b] o'] E;
    try discriminate; [reflexivity|].
  simpl in E. injection E as -> E. simpl. now rewrite (IH o' E).
Qed.

Lemma keys_mapValues (o : obj V) : keys (mapValues h o) = keys o.
Proof.
  unfold keys.
  rewrite (@indexKeys_fst _ _ (mapValues h o) o (fst_mapValues o)).
  now rewrite (@nameKeys_fst _ _ (mapValues h o) o (fst_mapValues o)).
Qed.
End MapValues.

Lemma resolveType_rewriteBody opts f c :
  resolveType opts (rewriteBody opts f c) = resolveType opts c.
Proof. unfold rewriteBody. destruct (resolveType opts c =? "breaking"); reflexivity. Qed.

Lemma category_rewriteBody opts f c :
  category (rewriteBody opts f c) = category c.
Proof. unfold rewriteBody. destruct (resolveType opts c =? "breaking"); reflexivity. Qed.

Lemma addCommit_rewriteBody opts f types c :
  addCommit opts (mapBuckets (rewriteBody opts f) types) (rewriteBody opts f c)
  = mapResult (mapBuckets (rewriteBody opts f)) (addCommit opts types c).
Proof.
  unfold addCommit, get.
  rewrite resolveType_rewriteBody, category_rewriteBody.
  unfold mapBuckets at 1. rewrite own_mapValues.
  destruct (own types (resolveType opts c)) as [cats|]; cbn [option_map].
  - rewrite own_mapValues.
    destruct (own cats (propertyKey (category c))) as [arr|]; cbn [option_map].
    + cbn [mapResult]. f_equal. unfold mapBuckets.
      rewrite <- put_mapValues. f_equal. rewrite <- put_mapValues. f_equal.
      now rewrite map_app.
    + destruct (inherited (propertyKey (category c))); [reflexivity|].
      cbn [mapResult]. f_equal. unfold mapBuckets.
      rewrite <- put_mapValues. f_equal. now rewrite <- put_mapValues.
  - destruct (inherited (resolveType opts c)); [reflexivity|].
    cbn [own].
    destruct (inherited (propertyKey (category c))); [reflexivity|].
    cbn [mapResult]. f_equal. unfold mapBuckets.
    now rewrite <- put_mapValues.
Qed.

Lemma groupCommits_rewriteBody opts f cs :
  groupCommits opts (map (rewriteBody opts f) cs)
  = mapResult (mapBuckets (rewriteBody opts f)) (groupCommits opts cs).
Proof.
  unfold groupCommits.
  change (@nil (string * obj (list commit)))
    with (mapBuckets (rewriteBody opts f) []) at 1.
  generalize (@nil (string * obj (list commit))).
  induction cs as [|c cs IH]; intros acc; simpl; [reflexivity|].
  rewrite addCommit_rewriteBody.
  destruct (addCommit opts acc c); simpl; [apply IH | reflexivity | reflexivity].
Qed.

Lemma renderCommit_setBody opts ty prefix b c :
  ty <> "breaking" ->
  renderCommit opts ty prefix (setBody b c) = renderCommit opts ty prefix c.
Proof.
  intros N. unfold renderCommit. cbn [hash subject setBody].
  apply String.eqb_neq in N. rewrite N.
  destruct (hash c), (subject c); reflexivity.
Qed.

Lemma mapM_map (A B C : Type) (f : B -> result C) (g : A -> B) xs :
  mapM f (map g xs) = mapM (fun x => f (g x)) xs.
Proof.
  induction xs as [|x xs IH]; simpl; [reflexivity | now rewrite IH].
Qed.

Lemma mapM_ext (A B : Type) (f g : A -> result B) xs :
  (forall x, In x xs -> f x = g x) -> mapM f xs = mapM g xs.
Proof.
  induction xs as [|x xs IH]; intros H; simpl; [reflexivity|].
  rewrite (H x (or_introl eq_refl)), IH; [reflexivity|].
  intros; apply H; now right.
Qed.

Lemma renderType_rewriteBody opts f cs types ty :
  groupCommits opts cs = Ok types ->
  renderType opts (mapBuckets (rewriteBody opts f) types) ty
  = renderType opts types ty.
Proof.
  intros G. unfold renderType, mapBuckets. rewrite own_mapValues.
  destruct (own types ty) as [cats|] eqn:Ot; [|reflexivity]. cbn [option_map].
  rewrite keys_mapValues.
  rewrite (@mapM_ext _ _ (renderCategory opts ty (mapValues (map (rewriteBody opts f)) cats))
             (renderCategory opts ty cats)); [reflexivity|].
  intros cat _. unfold renderCategory. rewrite own_mapValues.
  destruct (own cats cat) as [arr|] eqn:Oc; [|reflexivity]. cbn [option_map].
  rewrite length_map.
  assert (E : forall prefix,
             mapM (renderCommit opts ty prefix) (map (rewriteBody opts f) arr)
             = mapM (renderCommit opts ty prefix) arr).
  { intros prefix. rewrite mapM_map. apply mapM_ext. intros c I.
    destruct (@bucket_commit _ _ _ _ _ _ _ _ G Ot Oc I) as [_ [T _]].
    unfold rewriteBody. rewrite T.
    destruct (ty =? "breaking") eqn:B; [reflexivity|].
    apply renderCommit_setBody. now apply String.eqb_neq. }
  now rewrite !E.
Qed.

Lemma keys_mapBuckets g types : keys (mapBuckets g types) = keys types.
Proof. unfold mapBuckets. apply keys_mapValues. Qed.

(** The document does not depend on the bodies of the commits that are
    not filed under [breaking]. *)
Lemma markdown_rewriteBody date v cs opts f :
  markdown date v (map (rewriteBody opts f) cs) opts = markdown date v cs opts.
Proof.
  unfold markdown, markdownLines. rewrite groupCommits_rewriteBody.
  destruct (groupCommits opts cs) as [types| |] eqn:G; try reflexivity.
  cbn [mapResult bind]. rewrite keys_mapBuckets.
  rewrite (@mapM_ext _ _ (renderType opts (mapBuckets (rewriteBody opts f) types))
             (renderType opts types)); [reflexivity|].
  intros ty _. now apply renderType_rewriteBody with (cs := cs).
Qed.

(* ================================================================= *)
(** * The frame of the document *)

Lemma append_inj_l (a x y : string) : a ++ x = a ++ y -> x = y.
Proof. induction a as [|c a IH]; simpl; intros H; [exact H|]. injection H as H. auto. Qed.

Lemma join_cons sep x y ys :
  join sep (x :: y :: ys) = x ++ sep ++ join sep (y :: ys).
Proof. reflexivity. Qed.

Lemma join_snoc sep xs y :
  xs <> [] -> join sep (xs ++ [y]) = join sep xs ++ sep ++ y.
Proof.
  induction xs as [|x xs IH]; intros N; [congruence|].
  destruct xs as [|x' xs]; [reflexivity|].
  change ((x :: x' :: xs) ++ [y])%list with (x :: x' :: (xs ++ [y]))%list.
  rewrite !join_cons.
  change (x' :: (xs ++ [y]))%list with ((x' :: xs) ++ [y])%list.
  rewrite IH by discriminate. now rewrite !append_assoc.
Qed.

Lemma sections_end opts types ks sections :
  mapM (renderType opts types) ks = Ok sections -> sections <> [] ->
  exists zs, List.concat sections = (zs ++ [""])%list.
Proof.
  intros M N. destruct (exists_last N) as [init [last ->]].
  apply mapM_Ok in M. apply Forall2_app_inv_r in M as [ks1 [ks2 [_ [F _]]]].
  inversion F as [|k sec ? ? R _]; subst.
  destruct (@renderType_inv _ _ _ _ R) as [cats [blocks [_ [_ ->]]]].
  rewrite concat_app. cbn [List.concat]. rewrite app_nil_r.
  exists (List.concat init ++ [typeHeading opts k; ""] ++ List.concat blocks)%list.
  now rewrite <- !app_assoc.
Qed.

Lemma markdownLines_frame date v cs opts lines :
  markdownLines date v cs opts = Ok lines ->
  exists mid, lines = (documentHeading date v opts :: "" :: mid ++ [""])%list
              /\ (documentHeading date v opts :: mid)%list <> []
              /\ exists ys, ys <> [] /\ lines = (ys ++ [""; ""])%list.
Proof.
  intros H.
  destruct (@markdownLines_inv _ _ _ _ _ H) as [types [sections [_ [M ->]]]].
  exists (List.concat sections). split; [reflexivity|]. split; [discriminate|].
  destruct sections as [|s ss].
  - exists [documentHeading date v opts]. split; [discriminate | reflexivity].
  - destruct (@sections_end _ _ _ _ M ltac:(discriminate)) as [zs E].
    rewrite E.
    exists ([documentHeading date v opts; ""] ++ zs)%list.
    split; [discriminate|]. now rewrite <- !app_assoc.
Qed.

(** X1: the document opens with the heading ([##] for a major release,
    else [###] for a minor one, else [####]; then the version with the
    date in parentheses, or the date alone when the version is missing
    or empty), followed by an empty line; it ends with two line
    feeds; and without commits it is the heading and two line feeds. *)
Theorem document_frame date v cs opts doc :
  markdown date v cs opts = Ok doc ->
  (exists rest, doc = headingMarker opts ++ " "
                        ++ match v with
                           | Some (String a w) => String a w ++ " (" ++ date ++ ")"
                           | _ => date
                           end
                        ++ nl ++ nl ++ rest)
  /\ endsWith (nl ++ nl) doc
  /\ (cs = [] -> doc = documentHeading date v opts ++ nl ++ nl).
Proof.
  intros H. destruct (@markdown_inv _ _ _ _ _ H) as [lines [L ->]].
  destruct (@markdownLines_frame _ _ _ _ _ L) as [mid [E [_ [ys [Ny E2]]]]].
  split; [|split].
  - rewrite E.
    change (documentHeading date v opts :: "" :: mid ++ [""])%list
      with (documentHeading date v opts :: "" :: (mid ++ [""]))%list.
    rewrite join_cons.
    exists (match mid with [] => "" | _ => join nl (mid ++ [""]) end).
    assert (J : join nl ("" :: (mid ++ [""])%list)
                = nl ++ match mid with [] => "" | _ => join nl (mid ++ [""]) end).
    { destruct mid; reflexivity. }
    rewrite J. unfold documentHeading, headingMarker.
    destruct v as [[|a w]|]; cbn [truthy isEmpty negb]; norm_append; reflexivity.
  - rewrite E2.
    change (ys ++ [""; ""])%list with (ys ++ [""] ++ [""])%list.
    rewrite app_assoc, join_snoc by (destruct ys; discriminate).
    rewrite join_snoc by exact Ny.
    exists (join nl ys). rewrite !append_assoc. now rewrite !append_nil_r.
  - intros ->. unfold markdownLines in L. simpl in L. injection L as <-.
    reflexivity.
Qed.

Lemma document_frame_witness :
  (exists rest, "#### 2024-01-24" ++ nl ++ nl
                = headingMarker noOptions ++ " " ++ "2024-01-24" ++ nl ++ nl ++ rest)
  /\ endsWith (nl ++ nl) ("#### 2024-01-24" ++ nl ++ nl)
  /\ (@nil commit = [] ->
      "#### 2024-01-24" ++ nl ++ nl
      = documentHeading "2024-01-24" None noOptions ++ nl ++ nl).
Proof.
  apply (@document_frame "2024-01-24" None [] noOptions).
  vm_compute. reflexivity.
Defined.

(* ================================================================= *)
(** * Filing the commits *)

(** The state after one commit has been filed. *)
Lemma addCommit_Ok_appends opts types c types' :
  addCommit opts types c = Ok types' ->
  map fst types' = addKey (map fst types) (resolveType opts c)
  /\ (forall ty,
        map fst (catsOf types' ty)
        = if sameType opts ty c
          then addKey (map fst (catsOf types ty)) (categoryKey c)
          else map fst (catsOf types ty))
  /\ (forall ty cat,
        arrOf (catsOf types' ty) cat
        = if inBucket opts ty cat c
          then (arrOf (catsOf types ty) cat ++ [c])%list
          else arrOf (catsOf types ty) cat).
Proof.
  intros H. apply addCommit_Ok in H. subst types'.
  set (ty0 := resolveType opts c). set (cat0 := categoryKey c).
  assert (C : forall ty, catsOf (put types ty0
                 (put (catsOf types ty0) cat0
                    (arrOf (catsOf types ty0) cat0 ++ [c])%list)) ty
                = if ty =? ty0
                  then put (catsOf types ty0) cat0
                         (arrOf (catsOf types ty0) cat0 ++ [c])%list
                  else catsOf types ty).
  { intros ty. unfold catsOf at 1. destruct (ty =? ty0) eqn:E.
    - apply String.eqb_eq in E. subst ty. now rewrite own_put_same.
    - apply String.eqb_neq in E. now rewrite own_put_other. }
  split; [apply keys_put|]. split.
  - intros ty. rewrite C. unfold sameType. fold ty0.
    rewrite (String.eqb_sym ty0 ty). destruct (ty =? ty0) eqn:E; [|reflexivity].
    apply String.eqb_eq in E. subst ty. apply keys_put.
  - intros ty cat. rewrite C. unfold inBucket. fold ty0. fold cat0.
    rewrite (String.eqb_sym ty0 ty), (String.eqb_sym cat0 cat).
    destruct (ty =? ty0) eqn:E; cbn [andb]; [|reflexivity].
    apply String.eqb_eq in E. subst ty. unfold arrOf at 1.
    destruct (cat =? cat0) eqn:E2.
    + apply String.eqb_eq in E2. subst cat. now rewrite own_put_same.
    + apply String.eqb_neq in E2. now rewrite own_put_other.
Qed.

Lemma addCommit_Ok_names opts types c types' :
  addCommit opts types c = Ok types' ->
  (own types (resolveType opts c) = None ->
   inherited (resolveType opts c) = false)
  /\ (own (catsOf types (resolveType opts c)) (categoryKey c) = None ->
      inherited (categoryKey c) = false).
Proof.
  unfold addCommit, catsOf, categoryKey, get.
  destruct (own types (resolveType opts c)) as [cats|].
  - destruct (own cats (propertyKey (category c))) as [arr|].
    + intros _. split; discriminate.
    + destruct (inherited (propertyKey (category c))); [discriminate|].
      intros _. split; [discriminate | reflexivity].
  - destruct (inherited (resolveType opts c)); [discriminate|].
    cbn [own].
    destruct (inherited (propertyKey (category c))); [discriminate|].
    intros _. split; reflexivity.
Qed.

Lemma groupCommits_Ok_names opts cs :
  forall types, groupCommits opts cs = Ok types -> ownNames opts cs.
Proof.
  induction cs as [|c cs IH] using rev_ind; intros types H c' I; [destruct I|].
  rewrite groupCommits_snoc in H.
  destruct (groupCommits opts cs) as [types0| |] eqn:G; try discriminate.
  cbn [bind] in H. specialize (IH types0 eq_refl).
  apply in_app_iff in I as [I|[<-|[]]]; [now apply IH|].
  pose proof (@groupCommits_grouped _ _ _ G) as [I1 I2 _].
  destruct (@addCommit_Ok_names _ _ _ _ H) as [N1 N2]. split.
  - destruct (own types0 (resolveType opts c)) as [cats|] eqn:O; [|now apply N1].
    apply own_Some_In in O. rewrite I1, In_firstSeen in O.
    apply in_map_iff in O as [c0 [E I0]]. rewrite <- E. now apply IH.
  - destruct (own (catsOf types0 (resolveType opts c)) (categoryKey c))
      as [arr|] eqn:O; [|now apply N2].
    apply own_Some_In in O. rewrite I2, In_firstSeen in O.
    apply in_map_iff in O as [c0 [E I0]]. apply filter_In in I0 as [I0 _].
    rewrite <- E. now apply IH.
Qed.

(** X3: [markdown] resolves to a document, with no [TypeError] and no
    commit filed on a built-in object, exactly when no type and no
    category of the commits is the name of an inherited property and
    every commit carries a hash and a subject. *)
Theorem markdown_returns_iff date v cs opts :
  (exists doc, markdown date v cs opts = Ok doc)
  <-> (forall c, In c cs ->
         inherited (resolveType opts c) = false
         /\ inherited (categoryKey c) = false
         /\ hash c <> None /\ subject c <> None).
Proof.
  rewrite markdown_Ok_iff. split.
  - intros [[types G] P] c I.
    destruct (@groupCommits_Ok_names _ _ _ G c I), (P c I). auto.
  - intros H. split.
    + apply groupCommits_total. intros c I.
      destruct (H c I) as [H1 [H2 _]]. auto.
    + intros c I. destruct (H c I) as [_ [_ [H3 H4]]]. auto.
Qed.

Lemma markdown_returns_iff_witness :
  exists doc, markdown "2024-01-24" None numberedCommits noOptions = Ok doc.
Proof.
  apply (proj2 (markdown_returns_iff "2024-01-24" None numberedCommits noOptions)).
  intros c [<-|[<-|[]]]; repeat split; try reflexivity; discriminate.
Defined.

(* ================================================================= *)
(** * The entries of [content] *)

Lemma Forall2_In_split (A B : Type) (R : A -> B -> Prop) xs ys x :
  Forall2 R xs ys -> In x xs ->
  exists y ys1 ys2, ys = (ys1 ++ y :: ys2)%list /\ R x y.
Proof.
  induction 1 as [|x' y' xs ys Rxy F IH]; intros I; [destruct I|].
  destruct I as [->|I].
  - exists y', [], ys. split; [reflexivity | exact Rxy].
  - destruct (IH I) as [y [ys1 [ys2 [-> Ry]]]].
    exists y, (y' :: ys1)%list, ys2. split; [reflexivity | exact Ry].
Qed.

Lemma concat_split (A : Type) (ls1 ls2 : list (list A)) l :
  List.concat (ls1 ++ l :: ls2)
  = (List.concat ls1 ++ l ++ List.concat ls2)%list.
Proof. rewrite concat_app. reflexivity. Qed.

(** The entries of a bucket in the lines of a document. *)
Lemma bucket_entries date v cs opts lines ty cat :
  markdownLines date v cs opts = Ok lines ->
  filter (inBucket opts ty cat) cs <> [] ->
  let arr := filter (inBucket opts ty cat) cs in
  exists before ls after,
    lines = (before
               ++ (if isNested cat (List.length arr)
                   then [categoryLine cat] else [])
               ++ ls ++ after)%list
    /\ Forall2 (fun c line =>
                  renderCommit opts ty
                    (bulletPrefix cat (List.length arr)) c = Ok line)
               arr ls.
Proof.
  intros H N. cbv zeta.
  destruct (@markdownLines_inv _ _ _ _ _ H) as [types [sections [G [M ->]]]].
  pose proof (@groupCommits_grouped _ _ _ G) as [I1 I2 I3].
  destruct (filter (inBucket opts ty cat) cs) as [|c0 arr0] eqn:Earr;
    [contradiction|].
  assert (Ic : In c0 (filter (inBucket opts ty cat) cs))
    by (rewrite Earr; now left).
  apply filter_In in Ic as [Ic B]. unfold inBucket in B.
  apply andb_true_iff in B as [B1 B2]. apply String.eqb_eq in B1, B2.
  assert (Ity : In ty (sort (keys types))).
  { apply (Permutation_in (l := keys types)); [symmetry; apply sort_perm|].
    apply In_keys. rewrite I1, In_firstSeen, <- B1. now apply in_map. }
  apply mapM_Ok in M.
  destruct (@Forall2_In_split _ _ _ _ _ _ M Ity) as [sec [s1 [s2 [-> R]]]].
  destruct (@renderType_inv _ _ _ _ R) as [cats [blocks [O [Mb ->]]]].
  pose proof (@catsOf_own _ _ _ O) as Ecats.
  assert (Icat : In cat (keys cats)).
  { apply In_keys. rewrite <- Ecats, I2, In_firstSeen, <- B2.
    apply in_map, filter_In. split; [exact Ic|].
    unfold sameType. rewrite B1. apply String.eqb_refl. }
  apply mapM_Ok in Mb.
  destruct (@Forall2_In_split _ _ _ _ _ _ Mb Icat) as [block [b1 [b2 [-> Rb]]]].
  destruct (@renderCategory_inv _ _ _ _ _ Rb) as [arr' [ls [Oa [Ml ->]]]].
  assert (A : arr' = c0 :: arr0).
  { rewrite <- (@arrOf_own _ _ _ Oa), <- Ecats, I3. exact Earr. }
  subst arr'.
  exists ([documentHeading date v opts; ""] ++ List.concat s1
            ++ [typeHeading opts ty; ""] ++ List.concat b1)%list, ls,
         (List.concat b2 ++ [""] ++ List.concat s2 ++ [""])%list.
  split; [|now apply mapM_Ok].
  rewrite !concat_split. rewrite <- !app_assoc. reflexivity.
Qed.

Lemma list_sum_perm l l' : Permutation l l' -> list_sum l = list_sum l'.
Proof. induction 1; simpl; lia. Qed.

Lemma list_sum_map_add (A : Type) (f g : A -> nat) l :
  list_sum (map (fun x => f x + g x) l)
  = list_sum (map f l) + list_sum (map g l).
Proof. induction l as [|x l IH]; simpl; lia. Qed.

Lemma list_sum_map_const (A : Type) (n : nat) (l : list A) :
  list_sum (map (fun _ => n) l) = n * List.length l.
Proof. induction l as [|x l IH]; simpl; lia. Qed.

Lemma list_sum_map_filter (A : Type) (p : A -> bool) l :
  list_sum (map (fun x => if p x then 1 else 0) l) = List.length (filter p l).
Proof. induction l as [|x l IH]; simpl; [reflexivity|]. destruct (p x); simpl; lia. Qed.

Lemma list_sum_map_ext (A : Type) (f g : A -> nat) l :
  (forall x, In x l -> f x = g x) -> list_sum (map f l) = list_sum (map g l).
Proof.
  induction l as [|x l IH]; intros H; simpl; [reflexivity|].
  rewrite (H x (or_introl eq_refl)), IH; [reflexivity|].
  intros; apply H; now right.
Qed.

Lemma Forall2_lengths (A B : Type) (g : A -> nat) (R : A -> list B -> Prop)
      xs ys :
  Forall2 R xs ys -> (forall x y, In x xs -> R x y -> List.length y = g x) ->
  List.length (List.concat ys) = list_sum (map g xs).
Proof.
  induction 1 as [|x y xs ys Rxy F IH]; intros H; simpl; [reflexivity|].
  rewrite length_app, (H x y (or_introl eq_refl) Rxy), IH; [reflexivity|].
  intros; eapply H; eauto. now right.
Qed.

Lemma bucket_sizes opts cs ty :
  list_sum (map (fun cat => List.length (filter (inBucket opts ty cat) cs))
                (categoriesOf opts cs ty))
  = List.length (filter (sameType opts ty) cs).
Proof.
  rewrite <- (Permutation_length
                (@partition_by_key _ categoryKey (categoriesOf opts cs ty)
                   (filter (sameType opts ty) cs)
                   (NoDup_firstSeen _)
                   (fun c I => proj2 (In_firstSeen _ _) (in_map categoryKey _ c I)))).
  rewrite length_flat_map. apply list_sum_map_ext. intros cat _.
  now rewrite filter_filter.
Qed.

Lemma section_sizes opts cs :
  list_sum (map (fun ty => List.length (filter (sameType opts ty) cs))
                (sectionsOf opts cs))
  = List.length cs.
Proof.
  rewrite <- length_flat_map.
  apply Permutation_length.
  apply (@partition_by_key _ (resolveType opts) (sectionsOf opts cs) cs
           (NoDup_firstSeen _)).
  intros c I. apply In_firstSeen. now apply in_map.
Qed.

(** The number of entries of a document. *)
Lemma content_length_Ok date v cs opts lines :
  markdownLines date v cs opts = Ok lines ->
  List.length lines
  = 3 + 3 * List.length (sectionsOf opts cs)
      + List.length (nestedBuckets opts cs) + List.length cs.
Proof.
  intros H.
  destruct (@markdownLines_inv _ _ _ _ _ H) as [types [sections [G [M ->]]]].
  pose proof (@groupCommits_grouped _ _ _ G) as [I1 I2 I3].
  set (gcat := fun ty cat =>
                 (if isNested cat (List.length (filter (inBucket opts ty cat) cs))
                  then 1 else 0)
                 + List.length (filter (inBucket opts ty cat) cs)).
  set (gty := fun ty => 3 + list_sum (map (gcat ty) (categoriesOf opts cs ty))).
  assert (S : List.length (List.concat sections)
              = list_sum (map gty (sort (keys types)))).
  { apply mapM_Ok in M. apply (Forall2_lengths gty M).
    intros ty sec Ity R.
    destruct (@renderType_inv _ _ _ _ R) as [cats [blocks [O [Mb ->]]]].
    pose proof (@catsOf_own _ _ _ O) as Ecats.
    apply mapM_Ok in Mb.
    rewrite !length_app, (Forall2_lengths (gcat ty) Mb).
    - unfold gty. cbn [List.length]. 
      rewrite (list_sum_perm (Permutation_map (gcat ty) (keys_perm cats))).
      rewrite <- Ecats, I2. unfold categoriesOf. lia.
    - intros cat block Icat Rb.
      destruct (@renderCategory_inv _ _ _ _ _ Rb) as [arr [ls [Oa [Ml ->]]]].
      assert (A : arr = filter (inBucket opts ty cat) cs)
        by (rewrite <- (@arrOf_own _ _ _ Oa), <- Ecats; apply I3).
      apply mapM_Ok, Forall2_length in Ml.
      unfold gcat. rewrite length_app, <- Ml, <- A.
      destruct (isNested cat (List.length arr)); reflexivity. }
  rewrite !length_app, S. cbn [List.length].
  rewrite (list_sum_perm (Permutation_map gty (sort_perm (keys types)))).
  rewrite (list_sum_perm (Permutation_map gty (keys_perm types))), I1.
  fold (sectionsOf opts cs). unfold gty.
  rewrite (list_sum_map_add (fun _ => 3)), list_sum_map_const.
  assert (E : list_sum (map (fun ty => list_sum (map (gcat ty) (categoriesOf opts cs ty)))
                            (sectionsOf opts cs))
              = List.length (nestedBuckets opts cs) + List.length cs).
  { unfold nestedBuckets. rewrite length_flat_map.
    rewrite <- (section_sizes opts cs), <- list_sum_map_add.
    apply list_sum_map_ext. intros ty _. unfold gcat.
    rewrite list_sum_map_add, list_sum_map_filter, bucket_sizes, length_map.
    reflexivity. }
  rewrite E. lia.
Qed.

(* ================================================================= *)
(** * The headings of the sections *)

Lemma own_In (V : Type) (o : obj V) k v : own o k = Some v -> In (k, v) o.
Proof.
  induction o as [|[k' v'] o IH]; simpl; [discriminate|].
  destruct (k =? k') eqn:E.
  - apply String.eqb_eq in E. subst. intros H. injection H as ->. now left.
  - intros H. right. now apply IH.
Qed.

Lemma TYPES_labels_truthy k d : In (k, d) TYPES -> truthy d = true.
Proof.
  intros I.
  assert (F : forallb (fun kd => truthy (snd kd)) TYPES = true) by reflexivity.
  rewrite forallb_forall in F. apply (F _ I).
Qed.

Lemma TYPES_labels_distinct k1 d1 k2 d2 :
  In (k1, d1) TYPES -> In (k2, d2) TYPES -> d1 = d2 -> k1 = k2.
Proof.
  intros I1 I2 E.
  assert (F : forallb (fun p1 =>
                forallb (fun p2 => implb (snd p1 =? snd p2) (fst p1 =? fst p2))
                        TYPES) TYPES = true) by (vm_compute; reflexivity).
  rewrite forallb_forall in F. specialize (F _ I1).
  rewrite forallb_forall in F. specialize (F _ I2).
  cbn [fst snd] in F. apply String.eqb_eq in E. rewrite E in F.
  now apply String.eqb_eq.
Qed.

Lemma TYPES_labels_not_synthesized k d t :
  In (k, d) TYPES -> d <> TYPES_other ++ " (" ++ t ++ ")".
Proof.
  intros I E.
  assert (F : forallb (fun kd => negb (prefix (TYPES_other ++ " (") (snd kd)))
                      TYPES = true) by (vm_compute; reflexivity).
  rewrite forallb_forall in F. specialize (F _ I). cbn [snd] in F.
  assert (P : prefix (TYPES_other ++ " (") d = true).
  { apply prefix_iff. exists (t ++ ")"). rewrite E. now rewrite !append_assoc. }
  rewrite P in F. discriminate.
Qed.

(** The heading of a type that is a key of the catalog, and of one that
    is not. *)
Lemma typeHeading_known opts k d :
  own TYPES k = Some d -> typeHeading opts k = "##### " ++ d.
Proof.
  intros O. unfold typeHeading, get. rewrite O. cbn [truthyLookup].
  now rewrite (@TYPES_labels_truthy k d (@own_In _ _ _ _ O)).
Qed.

Lemma typeHeading_unknown opts k :
  own TYPES k = None -> inherited k = false -> allowUnknown opts = true ->
  typeHeading opts k = "##### " ++ TYPES_other ++ " (" ++ k ++ ")".
Proof.
  intros O N A. unfold typeHeading, get. rewrite O, N, A. reflexivity.
Qed.

Lemma typeHeading_injective opts k1 k2 :
  sectionKey opts k1 -> sectionKey opts k2 ->
  typeHeading opts k1 = typeHeading opts k2 -> k1 = k2.
Proof.
  intros [N1 C1] [N2 C2] E.
  destruct (own TYPES k1) as [d1|] eqn:O1, (own TYPES k2) as [d2|] eqn:O2.
  - rewrite (@typeHeading_known opts k1 d1 O1), (@typeHeading_known opts k2 d2 O2) in E.
    apply append_inj_l in E.
    apply (@TYPES_labels_distinct k1 d1 k2 d2 (@own_In _ _ _ _ O1) (@own_In _ _ _ _ O2) E).
  - destruct (allowUnknown opts) eqn:A;
      [|destruct (C2 eq_refl); discriminate].
    rewrite (@typeHeading_known opts k1 d1 O1), (@typeHeading_unknown opts k2 O2 N2 A) in E.
    apply append_inj_l in E.
    now apply (@TYPES_labels_not_synthesized k1 d1 k2 (@own_In _ _ _ _ O1)) in E.
  - destruct (allowUnknown opts) eqn:A;
      [|destruct (C1 eq_refl); discriminate].
    rewrite (@typeHeading_known opts k2 d2 O2), (@typeHeading_unknown opts k1 O1 N1 A) in E.
    apply append_inj_l in E. symmetry in E.
    now apply (@TYPES_labels_not_synthesized k2 d2 k1 (@own_In _ _ _ _ O2)) in E.
  - destruct (allowUnknown opts) eqn:A;
      [|destruct (C1 eq_refl); discriminate].
    rewrite (@typeHeading_unknown opts k1 O1 N1 A), (@typeHeading_unknown opts k2 O2 N2 A) in E.
    do 3 apply append_inj_l in E. now apply append_inj_r in E.
Qed.

Lemma resolveType_sectionKey opts c :
  inherited (resolveType opts c) = false -> sectionKey opts (resolveType opts c).
Proof.
  intros N. split; [exact N|]. intros A. revert N.
  unfold resolveType, get. rewrite A, orb_false_r.
  destruct (own TYPES (type c)) as [d|] eqn:O.
  - cbn [truthyLookup].
    rewrite (@TYPES_labels_truthy _ d (@own_In _ _ _ _ O)). intros _.
    rewrite O. eauto.
  - destruct (inherited (type c)) eqn:I; cbn [truthyLookup].
    + intros N. congruence.
    + intros _. eexists. reflexivity.
Qed.

Lemma NoDup_map_in (A B : Type) (f : A -> B) (l : list A) :
  (forall x y, In x l -> In y l -> f x = f y -> x = y) ->
  NoDup l -> NoDup (map f l).
Proof.
  intros Inj N. induction N as [|x l Nx N IH]; simpl; constructor.
  - intros I. apply in_map_iff in I as [y [E Iy]].
    apply Nx. rewrite (Inj x y); auto; [now left | now right].
  - apply IH. intros a b Ia Ib. apply Inj; now right.
Qed.

Lemma keys_are_sectionKeys opts cs types k :
  groupCommits opts cs = Ok types -> In k (sort (keys types)) ->
  sectionKey opts k.
Proof.
  intros G I.
  apply (Permutation_in (l := sort (keys types))) with (l' := keys types) in I;
    [|apply sort_perm].
  pose proof (@groupCommits_grouped _ _ _ G) as [I1 _ _].
  apply In_keys in I. rewrite I1, In_firstSeen in I.
  apply in_map_iff in I as [c [<- Ic]].
  apply resolveType_sectionKey.
  now apply (@groupCommits_Ok_names _ _ _ G c Ic).
Qed.

(** The section headings of a document. *)
Lemma section_headings_Ok date v cs opts lines :
  markdownLines date v cs opts = Ok lines ->
  NoDup (filter isSectionHeading lines)
  /\ (allowUnknown opts = false ->
      (forall h, In h (filter isSectionHeading lines) ->
                 exists k d, In (k, d) TYPES /\ h = "##### " ++ d)
      /\ List.length (filter isSectionHeading lines) <= 11).
Proof.
  intros H.
  destruct (@markdownLines_inv _ _ _ _ _ H) as [types [sections [G [M ->]]]].
  assert (E : filter isSectionHeading
                ([documentHeading date v opts; ""] ++ List.concat sections ++ [""])%list
              = map (typeHeading opts) (sort (keys types))).
  { cbn [app filter]. rewrite documentHeading_not_heading.
    rewrite filter_app, (@filter_heading_sections _ _ _ _ M). cbn.
    now rewrite app_nil_r. }
  rewrite E.
  assert (ND : NoDup (sort (keys types))).
  { eapply Permutation_NoDup; [symmetry; apply sort_perm|].
    apply NoDup_keys.
    pose proof (@groupCommits_grouped _ _ _ G) as [I1 _ _].
    rewrite I1. apply NoDup_firstSeen. }
  assert (K : forall k, In k (sort (keys types)) -> sectionKey opts k)
    by (intros k I; eapply keys_are_sectionKeys; eauto).
  split.
  - apply NoDup_map_in; [|exact ND].
    intros x y Ix Iy. apply typeHeading_injective; auto.
  - intros A. split.
    + intros h I. apply in_map_iff in I as [k [<- Ik]].
      destruct (K k Ik) as [_ C]. destruct (C A) as [d O].
      exists k, d. split; [now apply own_In | now apply typeHeading_known].
    + rewrite length_map.
      change 11 with (List.length (map fst TYPES)).
      apply NoDup_incl_length; [exact ND|].
      intros k Ik. destruct (K k Ik) as [_ C]. destruct (C A) as [d O].
      now apply own_Some_In in O.
Qed.

(* ================================================================= *)
(** * The body and the subject of a commit *)

Lemma strips_prefix marker k f p r :
  stripsBlocks marker k f -> allChars notLF p = true ->
  f (p ++ r) = p ++ f r.
Proof.
  intros [_ [_ S]]. induction p as [|a p IH]; intros A; [reflexivity|].
  cbn [allChars] in A. apply andb_true_iff in A as [Na A].
  cbn [append]. rewrite S.
  - now rewrite IH.
  - unfold trailerBlock. unfold notLF in Na.
    destruct (Ascii.eqb LF a); [discriminate | reflexivity].
Qed.

(** X7: the three expressions leave the first line of a body alone: a
    body that begins with characters other than line feeds keeps them,
    and what follows is stripped as if it stood alone; a body of one line
    is kept whole, whatever marker it begins with. *)
Theorem first_line_is_kept p r :
  allChars notLF p = true ->
  (p <> "" -> stripTrailers (Some (p ++ r)) = p ++ stripTrailers (Some r))
  /\ stripTrailers (Some p) = p.
Proof.
  intros A.
  pose proof (trailerRegex_strips _ 4 marker_breaking) as H1.
  pose proof (trailerRegex_strips _ 3 marker_see) as H2.
  pose proof (trailerRegex_strips _ 2 marker_closes) as H3.
  rewrite <- trailerBreaking_shape in H1.
  rewrite <- trailerSee_shape in H2.
  rewrite <- trailerCloses_shape in H3.
  assert (K : forall r, p <> "" ->
            stripTrailers (Some (p ++ r)) = p ++ stripTrailers (Some r)).
  { intros r0 N. unfold stripTrailers.
    assert (T : forall x, truthy (p ++ x) = true)
      by (intros x; destruct p; [congruence | reflexivity]).
    rewrite T, (@strips_prefix _ _ _ p r0 H1 A), T.
    rewrite (@strips_prefix _ _ _ p _ H2 A), T.
    rewrite (@strips_prefix _ _ _ p _ H3 A).
    destruct r0 as [|b r0].
    - cbn [truthy isEmpty negb]. destruct H1 as [E1 _], H2 as [E2 _], H3 as [E3 _].
      now rewrite E1, E2, E3.
    - cbn [truthy isEmpty negb].
      rewrite (@truthy_strips _ _ _ (String b r0) H1 eq_refl).
      rewrite (@truthy_strips _ _ _ _ H2 (@truthy_strips _ _ _ (String b r0) H1 eq_refl)).
      reflexivity. }
  split; [apply K|].
  destruct p as [|a p]; [reflexivity|].
  rewrite <- (append_nil_r (String a p)) at 1.
  rewrite K by discriminate. apply append_nil_r.
Qed.

Lemma first_line_is_kept_witness :
  ("Closes #4" <> "" ->
   stripTrailers (Some ("Closes #4" ++ (nl ++ "Closes #5")))
   = "Closes #4" ++ stripTrailers (Some (nl ++ "Closes #5")))
  /\ stripTrailers (Some "Closes #4") = "Closes #4".
Proof.
  apply (@first_line_is_kept "Closes #4" (nl ++ "Closes #5")).
  reflexivity.
Defined.

Lemma rewrites_no_PR link f s :
  rewritesPRs link f -> hasPR s = false -> f s = s.
Proof.
  intros [E [_ S]]. induction s as [|a t IH]; intros H; [exact E|].
  cbn [hasPR] in H. destruct (prToken (String a t)) eqn:T; [discriminate|].
  rewrite (S a t T), (IH H). reflexivity.
Qed.

(** X8: a subject that holds no [#] followed by a digit from 1 to 9 is
    left as it is, with or without a repository URL. *)
Theorem subject_without_reference_unchanged opts ty s :
  hasPR s = false -> linkSubject opts ty s = s.
Proof.
  intros H. unfold linkSubject.
  destruct (repoUrl opts) as [url|]; [|reflexivity].
  destruct (truthy url); [|reflexivity].
  destruct (ty =? "breaking").
  - apply (@rewrites_no_PR _ _ s
             (PR_rewrites (fun pr => anchor (url ++ "/pull/" ++ slice pr 1 None) pr)) H).
  - apply (@rewrites_no_PR _ _ s
             (PR_rewrites (fun pr => mdLink (url ++ "/pull/" ++ slice pr 1 None) pr)) H).
Qed.

Lemma subject_without_reference_unchanged_witness :
  linkSubject (withRepo "https://github.com/x/y" false) "fix"
    "drop #0 and C# (see #x)"
  = "drop #0 and C# (see #x)".
Proof.
  apply (@subject_without_reference_unchanged
           (withRepo "https://github.com/x/y" false) "fix").
  reflexivity.
Defined.

Lemma replaceAllChar_append c r x y :
  replaceAllChar c r (x ++ y) = replaceAllChar c r x ++ replaceAllChar c r y.
Proof.
  induction x as [|a x IH]; simpl; [reflexivity|].
  destruct (Ascii.eqb a c); rewrite IH; [now rewrite append_assoc | reflexivity].
Qed.

Lemma replaceAllChar_none r x :
  allChars notLF x = true -> replaceAllChar LF r x = x.
Proof.
  induction x as [|a x IH]; simpl; [reflexivity|].
  intros A. apply andb_true_iff in A as [N A]. unfold notLF in N.
  rewrite Ascii.eqb_sym. destruct (Ascii.eqb LF a); [discriminate|].
  now rewrite IH.
Qed.

Lemma indent_lines ls :
  ls <> [] -> Forall (fun l => allChars notLF l = true) ls ->
  replaceAllChar LF (nl ++ indent) (indent ++ join nl ls)
  = join nl (map (append indent) ls).
Proof.
  intros N F. induction F as [|l ls A F IH]; [congruence|].
  destruct ls as [|l' ls].
  - cbn [join concat map]. rewrite replaceAllChar_append.
    rewrite (@replaceAllChar_none _ _ A). reflexivity.
  - change (map (append indent) (l :: l' :: ls))
      with ((indent ++ l) :: map (append indent) (l' :: ls)).
    change (join nl ((indent ++ l) :: map (append indent) (l' :: ls)))
      with ((indent ++ l) ++ nl ++ join nl (map (append indent) (l' :: ls))).
    rewrite <- IH by discriminate.
    rewrite join_cons, !replaceAllChar_append.
    rewrite (@replaceAllChar_none _ _ A).
    change (replaceAllChar LF (nl ++ indent) nl) with (nl ++ indent).
    change (replaceAllChar LF (nl ++ indent) indent) with indent.
    now rewrite !append_assoc.
Qed.

(** X9: inside a detail block every line of the stripped body is
    indented by six spaces, and the closing tag follows the last line
    without a line feed. *)
Theorem body_lines_are_indented c breaking subject shorthash ls :
  ls <> [] -> Forall (fun l => allChars notLF l = true) ls ->
  stripTrailers (body c) = join nl ls ->
  detailBlock c breaking subject shorthash
  = nl ++ "   * <details>" ++ nl ++ "      <summary>" ++ breaking
       ++ trim subject ++ " (" ++ shorthash ++ ")</summary>" ++ nl ++ nl
       ++ join nl (map (append indent) ls) ++ "</details>".
Proof.
  intros N F E. unfold detailBlock. rewrite E.
  change (truthy ("      " ++ join nl ls)) with true. cbv iota.
  rewrite <- (@indent_lines _ N F). unfold indent. norm_append. reflexivity.
Qed.

Lemma body_lines_are_indented_witness :
  detailBlock breakingCommit "" "drop it" "abcdef12"
  = nl ++ "   * <details>" ++ nl ++ "      <summary>" ++ ""
       ++ trim "drop it" ++ " (" ++ "abcdef12" ++ ")</summary>" ++ nl ++ nl
       ++ join nl (map (append indent) ["gone"; " "]) ++ "</details>".
Proof.
  apply (@body_lines_are_indented breakingCommit "" "drop it" "abcdef12"
           ["gone"; " "]).
  - discriminate.
  - repeat constructor.
  - vm_compute. reflexivity.
Defined.

(* ================================================================= *)
(** * Commit URLs and short hashes *)

(** X10: for one base URL, two commit URLs are equal only when the
    hashes are. *)
Theorem getCommitUrl_injective baseUrl h1 h2 :
  getCommitUrl baseUrl h1 = getCommitUrl baseUrl h2 -> h1 = h2.
Proof.
  unfold getCommitUrl. intros H.
  repeat (apply append_inj_l in H). exact H.
Qed.

Lemma getCommitUrl_injective_witness : "abc123" = "abc123".
Proof.
  apply (@getCommitUrl_injective "https://gitlab.com/x/y.git" "abc123" "abc123").
  reflexivity.
Defined.





(* ================================================================= *)
(** * Commits filed on [Object.prototype] *)

Lemma mapValues_id_ext (V : Type) (g : string -> V -> V) (o : obj V) :
  (forall k v, In (k, v) o -> g k v = v) ->
  map (fun kv => (fst kv, g (fst kv) (snd kv))) o = o.
Proof.
  induction o as [|[k v] o IH]; intros H; simpl; [reflexivity|].
  rewrite (H k v (or_introl eq_refl)), IH; [reflexivity|].
  intros. apply H. now right.
Qed.

Lemma contents_privately types : contents (privately types) = types.
Proof.
  unfold contents, privately, mapValues. cbn [thisTypes]. rewrite map_map.
  cbn [fst snd].
  apply (mapValues_id_ext
           (fun _ cats =>
              map (fun kb => (fst kb, bucketArray
                                        {| thisTypes := map (fun kv => (fst kv, map (fun kv0 => (fst kv0, Private (snd kv0))) (snd kv))) types;
                                           protoProps := [] |}
                                        (fst kb) (snd kb)))
                  (map (fun kv => (fst kv, Private (snd kv))) cats))).
  intros ty cats _. rewrite map_map. cbn [fst snd bucketArray].
  apply (mapValues_id_ext (fun _ arr => arr)). reflexivity.
Qed.

Lemma addCommitOn_privately opts types c :
  addCommit opts types c <> BuiltinWrite ->
  addCommitOn opts (privately types) c
  = mapResult privately (addCommit opts types c).
Proof.
  unfold addCommit, addCommitOn, resolveTypeOn, get.
  cbn [privately protoProps thisTypes own].
  set (ty := resolveType opts c). set (cat := propertyKey (category c)).
  rewrite own_mapValues.
  destruct (own types ty) as [cats|] eqn:Ot; cbn [option_map].
  - intros _. unfold fileUnder. cbn [protoProps thisTypes own].
    rewrite own_mapValues.
    destruct (own cats cat) as [arr|] eqn:Oc; cbn [option_map mapResult].
    + unfold privately. now rewrite <- !put_mapValues.
    + destruct (inherited cat); cbn [mapResult]; [reflexivity|].
      unfold privately. now rewrite <- !put_mapValues.
  - destruct (inherited ty) eqn:It; [congruence|]. intros _.
    assert (P : (ty =? "__proto__") = false).
    { apply String.eqb_neq. intros E. rewrite E in It. discriminate It. }
    rewrite P. unfold fileUnder. cbn [protoProps thisTypes own].
    destruct (inherited cat); cbn [mapResult]; [reflexivity|].
    unfold privately. now rewrite <- put_mapValues.
Qed.

Lemma foldM_privately opts cs :
  forall types,
    foldM (addCommit opts) cs types <> BuiltinWrite ->
    foldM (addCommitOn opts) cs (privately types)
    = mapResult privately (foldM (addCommit opts) cs types).
Proof.
  induction cs as [|c cs IH]; intros types N; [reflexivity|].
  cbn [foldM] in *.
  rewrite addCommitOn_privately
    by (intros E; rewrite E in N; now apply N).
  destruct (addCommit opts types c) as [types'| |]; cbn [mapResult bind] in *.
  - now apply IH.
  - reflexivity.
  - now contradiction N.
Qed.

(** For commits that reach no built-in object, the run on the heap is
    the run of [markdown]: nothing is added to [Object.prototype] and
    every bucket has an array of its own. *)
Lemma markdownOn_agrees date v cs opts :
  markdown date v cs opts <> BuiltinWrite ->
  markdownOn [] date v cs opts = markdown date v cs opts.
Proof.
  unfold markdownOn, markdown, markdownLinesOn, markdownLines, groupCommits.
  intros N.
  change {| thisTypes := []; protoProps := [] |} with (privately []).
  rewrite foldM_privately.
  - destruct (foldM (addCommit opts) cs []) as [types| |];
      cbn [mapResult bind]; try reflexivity.
    cbn [privately thisTypes]. rewrite keys_mapValues.
    rewrite (@mapM_ext _ _ (renderTypeOn opts (privately types))
               (renderType opts types)); [reflexivity|].
    intros ty _. unfold renderTypeOn. rewrite contents_privately.
    cbn [privately protoProps own].
    destruct (own TYPES ty); reflexivity.
  - intros E. rewrite E in N. now apply N.
Qed.

(** C10 at the failing input: the commit [__proto__(x): hidden] is not
    resolved to [breaking], yet its array is the one [Object.prototype]
    holds under [x], which the breaking change of category [x] is then
    filed in; both are listed under the heading of [breaking], each as a
    detail block, and the body of the first, [secret], is in the
    document.  Alone, the commit is in no section at all. *)
Theorem inherited_type_shares_bucket :
  resolveType noOptions protoCommit = "__proto__"
  /\ resolveType noOptions breakingX = "breaking"
  /\ foldM (addCommitOn noOptions) [protoCommit; breakingX]
       {| thisTypes := []; protoProps := [] |}
     = Ok {| thisTypes := [("breaking", [("x", Shared)])];
             protoProps := [("x", [protoCommit; breakingX])] |}
  /\ markdownLinesOn [] "2024-01-24" None [protoCommit; breakingX] noOptions
     = Ok sharedLines
  /\ markdownOn [] "2024-01-24" None [protoCommit; breakingX] noOptions
     = Ok (join nl sharedLines)
  /\ In ("  * " ++ nl ++ "   * <details>" ++ nl
           ++ "      <summary>hidden (12345678)</summary>" ++ nl ++ nl
           ++ "      secret</details>")
        sharedLines
  /\ markdownLinesOn [] "2024-01-24" None [protoCommit] noOptions
     = Ok [ "#### 2024-01-24"; ""; "" ]
  /\ markdown "2024-01-24" None [protoCommit; breakingX] noOptions
     = BuiltinWrite.
Proof.
  repeat split; try (vm_compute; reflexivity).
  unfold sharedLines. do 5 right. left. reflexivity.
Qed.

(* ================================================================= *)
(** * Documents of complete commits with names of their own *)

(** The writer returns when no name is inherited and no hash or subject
    is missing. *)
Lemma markdownLines_returns date v cs opts :
  ownNames opts cs -> complete cs ->
  exists lines,
    markdownLines date v cs opts = Ok lines
    /\ markdown date v cs opts = Ok (join nl lines).
Proof.
  intros N C.
  assert (X : exists doc, markdown date v cs opts = Ok doc).
  { apply markdown_Ok_iff. split; [now apply groupCommits_total | exact C]. }
  destruct X as [doc H].
  destruct (@markdown_inv _ _ _ _ _ H) as [lines [L ->]]. eauto.
Qed.

Lemma ownNames_rewriteBody opts f cs :
  ownNames opts cs -> ownNames opts (map (rewriteBody opts f) cs).
Proof.
  intros N c I. apply in_map_iff in I as [c0 [<- I0]].
  rewrite resolveType_rewriteBody.
  unfold categoryKey. rewrite category_rewriteBody. now apply N.
Qed.

(** C1, as amended: for commits that each carry a hash and a subject and
    of which no resolved type and no category is the name of an inherited
    property, the writer returns a document in which every commit whose
    resolved type is [breaking] is the detail block ([<details>], the
    summary made of the breaking prefix, the trimmed subject and the
    short hash or its link, the indented body and [</details>]) under the
    bullet of its category, and every other commit is the single entry
    made of its bullet, the breaking prefix, the trimmed subject and the
    short hash or its link; the document stays the same whatever the
    bodies of those other commits are. *)
Theorem breaking_detail_block date v cs opts :
  ownNames opts cs -> complete cs ->
  exists lines,
    markdownLines date v cs opts = Ok lines
    /\ markdown date v cs opts = Ok (join nl lines)
    /\ (forall c, In c cs ->
          exists h s,
            hash c = Some h /\ subject c = Some s
            /\ In (let prefix :=
                     bulletPrefix (categoryKey c)
                       (List.length (bucketOf opts cs c)) in
                   if resolveType opts c =? "breaking"
                   then detailLead prefix
                          ++ "* <details>" ++ nl ++ "      <summary>"
                          ++ breakingPrefix c
                          ++ trim (linkSubject opts "breaking" s)
                          ++ " (" ++ linkHash opts "breaking" h
                          ++ ")</summary>" ++ nl ++ nl
                          ++ indentedBody c ++ "</details>"
                   else prefix ++ " " ++ breakingPrefix c
                          ++ trim (linkSubject opts (resolveType opts c) s)
                          ++ " (" ++ linkHash opts (resolveType opts c) h
                          ++ ")")
                  lines)
    /\ (forall f,
          markdown date v (map (rewriteBody opts f) cs) opts
          = Ok (join nl lines)).
Proof.
  intros N C.
  destruct (@markdownLines_returns date v cs opts N C) as [lines [L M]].
  exists lines. split; [exact L|]. split; [exact M|]. split.
  - intros c I. destruct (C c I) as [Hh Hs].
    destruct (hash c) as [h|] eqn:Eh; [|congruence].
    destruct (subject c) as [s|] eqn:Es; [|congruence].
    exists h, s. split; [reflexivity|]. split; [reflexivity|].
    destruct (@markdownLines_commit _ _ _ _ _ c L I) as [line [R Il]].
    cbv zeta. destruct (resolveType opts c =? "breaking") eqn:B.
    + apply String.eqb_eq in B. rewrite B in R.
      rewrite (@renderCommit_breaking opts _ c h s Eh Es) in R.
      injection R as <-. exact Il.
    + apply String.eqb_neq in B.
      rewrite (@renderCommit_plain opts _ _ c h s B Eh Es) in R.
      injection R as <-. exact Il.
  - intros f. rewrite markdown_rewriteBody. exact M.
Qed.

Lemma breaking_detail_block_witness :
  exists lines,
    markdownLines "2024-01-24" None [featCommit; breakingCommit] noOptions
    = Ok lines
    /\ markdown "2024-01-24" None [featCommit; breakingCommit] noOptions
       = Ok (join nl lines)
    /\ (forall c, In c [featCommit; breakingCommit] ->
          exists h s,
            hash c = Some h /\ subject c = Some s
            /\ In (let prefix :=
                     bulletPrefix (categoryKey c)
                       (List.length
                          (bucketOf noOptions [featCommit; breakingCommit] c)) in
                   if resolveType noOptions c =? "breaking"
                   then detailLead prefix
                          ++ "* <details>" ++ nl ++ "      <summary>"
                          ++ breakingPrefix c
                          ++ trim (linkSubject noOptions "breaking" s)
                          ++ " (" ++ linkHash noOptions "breaking" h
                          ++ ")</summary>" ++ nl ++ nl
                          ++ indentedBody c ++ "</details>"
                   else prefix ++ " " ++ breakingPrefix c
                          ++ trim (linkSubject noOptions (resolveType noOptions c) s)
                          ++ " (" ++ linkHash noOptions (resolveType noOptions c) h
                          ++ ")")
                  lines)
    /\ (forall f,
          markdown "2024-01-24" None
            (map (rewriteBody noOptions f) [featCommit; breakingCommit]) noOptions
          = Ok (join nl lines)).
Proof.
  apply (@breaking_detail_block "2024-01-24" None [featCommit; breakingCommit]
           noOptions).
  - intros c [<-|[<-|[]]]; split; reflexivity.
  - intros c [<-|[<-|[]]]; split; discriminate.
Defined.

(* ================================================================= *)
(** * Links in the entries *)





(* ================================================================= *)
(** * Sorting by code units *)

Lemma leUnits_units a b : leUnits (units a) (units b) = (a <=? b).
Proof.
  unfold String.leb, units. revert b.
  induction a as [|x a IH]; intros [|y b]; try reflexivity.
  cbn [list_ascii_of_string map leUnits String.compare].
  unfold Ascii.compare.
  destruct (N.compare_spec (N_of_ascii x) (N_of_ascii y)) as [E|L|G].
  - rewrite E, N.eqb_refl. apply IH.
  - assert (Q : (N_of_ascii x =? N_of_ascii y)%N = false)
      by (apply N.eqb_neq; lia).
    rewrite Q. apply N.ltb_lt. exact L.
  - assert (Q : (N_of_ascii x =? N_of_ascii y)%N = false)
      by (apply N.eqb_neq; lia).
    rewrite Q. apply N.ltb_ge. lia.
Qed.

Lemma insertUnits_units x l :
  map units (insertKey x l) = insertUnits (units x) (map units l).
Proof.
  induction l as [|y l IH]; [reflexivity|].
  cbn [insertKey map insertUnits]. rewrite leUnits_units.
  destruct (x <=? y); [reflexivity|]. cbn [map]. now rewrite IH.
Qed.

(** The keys of the embedding are sorted as [sort] sorts their code
    units. *)
Lemma sort_units ks : map units (sort ks) = sortUnits (map units ks).
Proof.
  induction ks as [|k ks IH]; [reflexivity|].
  unfold sort, sortUnits in *. cbn [fold_right map].
  now rewrite insertUnits_units, IH.
Qed.

(** The order of the code units is not the order of the code points:
    U+1F600, the code units D83D DE00, is sorted before U+FB01. *)
Lemma code_units_before_code_points :
  sortUnits [[64257]; [55357; 56832]]%N = [[55357; 56832]; [64257]]%N
  /\ codePoints [55357; 56832]%N = [128512]%N
  /\ codePoints [64257]%N = [64257]%N
  /\ leUnits [64257]%N [128512]%N = true
  /\ leUnits [128512]%N [64257]%N = false.
Proof. repeat split; reflexivity. Qed.

(* ================================================================= *)
(** * The order of the sections and of the categories *)

(** C5, as amended: for commits that each carry a hash and a subject and
    of which no resolved type and no category is the name of an inherited
    property, the section headings of the returned document are those of
    the resolved types in ascending order of their code units, as
    [sortUnits] sorts them, which for the keys of the embedding, made of
    characters below U+0100, is also the order of their code points;
    under each type the categories are listed in the order of
    [Object.keys]: the categories that are array indices first, by
    ascending value, then the others in the order in which they were
    first seen; when no category of the type is an array index this is
    the order in which they were first seen. *)
Theorem section_and_category_order date v cs opts :
  ownNames opts cs -> complete cs ->
  exists lines types,
    markdownLines date v cs opts = Ok lines
    /\ markdown date v cs opts = Ok (join nl lines)
    /\ groupCommits opts cs = Ok types
    /\ filter isSectionHeading lines
       = map (typeHeading opts) (sort (keys types))
    /\ Sorted leStr (sort (keys types))
    /\ map units (sort (keys types)) = sortUnits (map units (keys types))
    /\ Permutation (sort (keys types))
                   (firstSeen (map (resolveType opts) cs))
    /\ forall ty, In ty (keys types) ->
         let seen := firstSeen (map categoryKey (filter (sameType opts ty) cs)) in
         (exists blocks,
             Forall2 (fun cat block =>
                        renderCategory opts ty (catsOf types ty) cat = Ok block)
                     (keys (catsOf types ty)) blocks
             /\ renderType opts types ty
                = Ok ([typeHeading opts ty; ""] ++ List.concat blocks ++ [""])%list)
         /\ (exists idx,
                keys (catsOf types ty)
                = (idx ++ filter (fun k => negb (isArrayIndex k)) seen)%list
                /\ Permutation idx (filter isArrayIndex seen)
                /\ Sorted leIndexValue idx)
         /\ (forallb (fun k => negb (isArrayIndex k)) seen = true ->
             keys (catsOf types ty) = seen).
Proof.
  intros N C.
  destruct (@markdownLines_returns date v cs opts N C) as [lines [L M]].
  destruct (@section_order_Ok _ _ _ _ _ L) as [types [G [F [S R]]]].
  exists lines, types.
  split; [exact L|]. split; [exact M|]. split; [exact G|]. split; [exact F|].
  split; [exact S|]. split; [apply sort_units | exact R].
Qed.

Lemma section_and_category_order_witness :
  exists lines types,
    markdownLines "2024-01-24" None numberedCommits noOptions = Ok lines
    /\ markdown "2024-01-24" None numberedCommits noOptions = Ok (join nl lines)
    /\ groupCommits noOptions numberedCommits = Ok types
    /\ filter isSectionHeading lines
       = map (typeHeading noOptions) (sort (keys types))
    /\ Sorted leStr (sort (keys types))
    /\ map units (sort (keys types)) = sortUnits (map units (keys types))
    /\ Permutation (sort (keys types))
                   (firstSeen (map (resolveType noOptions) numberedCommits))
    /\ forall ty, In ty (keys types) ->
         let seen := firstSeen (map categoryKey
                                  (filter (sameType noOptions ty) numberedCommits)) in
         (exists blocks,
             Forall2 (fun cat block =>
                        renderCategory noOptions ty (catsOf types ty) cat = Ok block)
                     (keys (catsOf types ty)) blocks
             /\ renderType noOptions types ty
                = Ok ([typeHeading noOptions ty; ""] ++ List.concat blocks ++ [""])%list)
         /\ (exists idx,
                keys (catsOf types ty)
                = (idx ++ filter (fun k => negb (isArrayIndex k)) seen)%list
                /\ Permutation idx (filter isArrayIndex seen)
                /\ Sorted leIndexValue idx)
         /\ (forallb (fun k => negb (isArrayIndex k)) seen = true ->
             keys (catsOf types ty) = seen).
Proof.
  apply (@section_and_category_order "2024-01-24" None numberedCommits noOptions).
  - intros c [<-|[<-|[]]]; split; reflexivity.
  - intros c [<-|[<-|[]]]; split; discriminate.
Defined.

(* ================================================================= *)
(** * Filing and listing, for names of their own *)

(** X2: when neither the resolved type nor the category of a commit is
    the name of an inherited property, filing the commit adds its type to
    the types, and its category to the categories of that type, after
    those already there unless it is there already, and appends the
    commit to its bucket; the other categories and buckets are left as
    they were. *)
Theorem addCommit_appends opts types c :
  inherited (resolveType opts c) = false ->
  inherited (categoryKey c) = false ->
  exists types',
    addCommit opts types c = Ok types'
    /\ map fst types' = addKey (map fst types) (resolveType opts c)
    /\ (forall ty,
          map fst (catsOf types' ty)
          = if sameType opts ty c
            then addKey (map fst (catsOf types ty)) (categoryKey c)
            else map fst (catsOf types ty))
    /\ (forall ty cat,
          arrOf (catsOf types' ty) cat
          = if inBucket opts ty cat c
            then (arrOf (catsOf types ty) cat ++ [c])%list
            else arrOf (catsOf types ty) cat).
Proof.
  intros Nt Nc.
  destruct (@addCommit_total opts types c Nt Nc) as [types' H].
  exists types'. split; [exact H|]. now apply addCommit_Ok_appends.
Qed.

Lemma addCommit_appends_witness :
  exists types',
    addCommit noOptions filedTypes apiCommit = Ok types'
    /\ map fst types'
       = addKey (map fst filedTypes) (resolveType noOptions apiCommit)
    /\ (forall ty,
          map fst (catsOf types' ty)
          = if sameType noOptions ty apiCommit
            then addKey (map fst (catsOf filedTypes ty)) (categoryKey apiCommit)
            else map fst (catsOf filedTypes ty))
    /\ (forall ty cat,
          arrOf (catsOf types' ty) cat
          = if inBucket noOptions ty cat apiCommit
            then (arrOf (catsOf filedTypes ty) cat ++ [apiCommit])%list
            else arrOf (catsOf filedTypes ty) cat).
Proof.
  apply (@addCommit_appends noOptions filedTypes apiCommit).
  - reflexivity.
  - reflexivity.
Defined.

(** X4: for commits that each carry a hash and a subject and of which no
    resolved type and no category is the name of an inherited property,
    the entries of every bucket that is not empty stand together in
    [content], one for each commit of the bucket and in the order of the
    input, right after the line of their category when the category is
    nested. *)
Theorem bucket_lines_in_input_order date v cs opts ty cat :
  ownNames opts cs -> complete cs ->
  filter (inBucket opts ty cat) cs <> [] ->
  let arr := filter (inBucket opts ty cat) cs in
  exists lines before ls after,
    markdownLines date v cs opts = Ok lines
    /\ markdown date v cs opts = Ok (join nl lines)
    /\ lines = (before
                  ++ (if isNested cat (List.length arr)
                      then [categoryLine cat] else [])
                  ++ ls ++ after)%list
    /\ Forall2 (fun c line =>
                  renderCommit opts ty
                    (bulletPrefix cat (List.length arr)) c = Ok line)
               arr ls.
Proof.
  intros N C E. cbv zeta.
  destruct (@markdownLines_returns date v cs opts N C) as [lines [L M]].
  destruct (@bucket_entries date v cs opts lines ty cat L E)
    as [before [ls [after [H1 H2]]]].
  exists lines, before, ls, after. auto.
Qed.

Lemma bucket_lines_in_input_order_witness :
  exists lines before ls after,
    markdownLines "2024-01-24" None nestedCommits noOptions = Ok lines
    /\ markdown "2024-01-24" None nestedCommits noOptions = Ok (join nl lines)
    /\ lines
       = (before
            ++ (if isNested "api"
                     (List.length
                        (filter (inBucket noOptions "feat" "api") nestedCommits))
                then [categoryLine "api"] else [])
            ++ ls ++ after)%list
    /\ Forall2 (fun c line =>
                  renderCommit noOptions "feat"
                    (bulletPrefix "api"
                       (List.length
                          (filter (inBucket noOptions "feat" "api") nestedCommits)))
                    c = Ok line)
               (filter (inBucket noOptions "feat" "api") nestedCommits) ls.
Proof.
  apply (@bucket_lines_in_input_order "2024-01-24" None nestedCommits noOptions
           "feat" "api").
  - intros c [<-|[<-|[<-|[]]]]; split; reflexivity.
  - intros c [<-|[<-|[<-|[]]]]; split; discriminate.
  - discriminate.
Defined.

(** X5: for commits that each carry a hash and a subject and of which no
    resolved type and no category is the name of an inherited property,
    [content] has three entries for the frame, three for each resolved
    type, one for each nested category and one for each commit. *)
Theorem content_length date v cs opts :
  ownNames opts cs -> complete cs ->
  exists lines,
    markdownLines date v cs opts = Ok lines
    /\ markdown date v cs opts = Ok (join nl lines)
    /\ List.length lines
       = 3 + 3 * List.length (sectionsOf opts cs)
           + List.length (nestedBuckets opts cs) + List.length cs.
Proof.
  intros N C.
  destruct (@markdownLines_returns date v cs opts N C) as [lines [L M]].
  exists lines. split; [exact L|]. split; [exact M|].
  now apply content_length_Ok with (date := date) (v := v).
Qed.

Lemma content_length_witness :
  exists lines,
    markdownLines "2024-01-24" None nestedCommits noOptions = Ok lines
    /\ markdown "2024-01-24" None nestedCommits noOptions = Ok (join nl lines)
    /\ List.length lines
       = 3 + 3 * List.length (sectionsOf noOptions nestedCommits)
           + List.length (nestedBuckets noOptions nestedCommits)
           + List.length nestedCommits.
Proof.
  apply (@content_length "2024-01-24" None nestedCommits noOptions).
  - intros c [<-|[<-|[<-|[]]]]; split; reflexivity.
  - intros c [<-|[<-|[<-|[]]]]; split; discriminate.
Defined.

(** X6: for commits that each carry a hash and a subject and of which no
    resolved type and no category is the name of an inherited property,
    no two sections of the document carry the same heading; when unknown
    types are not allowed every heading is [#####] and a label of the
    catalog, so that there are at most eleven sections. *)
Theorem section_headings_distinct date v cs opts :
  ownNames opts cs -> complete cs ->
  exists lines,
    markdownLines date v cs opts = Ok lines
    /\ markdown date v cs opts = Ok (join nl lines)
    /\ NoDup (filter isSectionHeading lines)
    /\ (allowUnknown opts = false ->
        (forall h, In h (filter isSectionHeading lines) ->
                   exists k d, In (k, d) TYPES /\ h = "##### " ++ d)
        /\ List.length (filter isSectionHeading lines) <= 11).
Proof.
  intros N C.
  destruct (@markdownLines_returns date v cs opts N C) as [lines [L M]].
  exists lines. split; [exact L|]. split; [exact M|].
  now apply section_headings_Ok with (date := date) (v := v) (cs := cs).
Qed.

Lemma section_headings_distinct_witness :
  exists lines,
    markdownLines "2024-01-24" None nestedCommits noOptions = Ok lines
    /\ markdown "2024-01-24" None nestedCommits noOptions = Ok (join nl lines)
    /\ NoDup (filter isSectionHeading lines)
    /\ (allowUnknown noOptions = false ->
        (forall h, In h (filter isSectionHeading lines) ->
                   exists k d, In (k, d) TYPES /\ h = "##### " ++ d)
        /\ List.length (filter isSectionHeading lines) <= 11).
Proof.
  apply (@section_headings_distinct "2024-01-24" None nestedCommits noOptions).
  - intros c [<-|[<-|[<-|[]]]]; split; reflexivity.
  - intros c [<-|[<-|[<-|[]]]]; split; discriminate.
Defined.
